(** * A shallow embedding of the voice-assistant pipeline

    The development follows the Python sources module by module:
    - [Text]      : the [str] methods the sources call, on ASCII text;
    - [Llm]       : [llm_providers.py] (conversation history, SSE decoding);
    - [Tts]       : [speech_to_text/yarngpt_tts.py] (request validation);
    - [Collector] : [speech_to_text/collector.py] over a small file-system model;
    - [Processor] : [speech_to_text/processor.py] ([_ensure_wav], batches);
    - [LlmFactory], [TtsBatch], [CollectorDir], [Pipeline] : the provider
      factory, [batch_synthesize], [collect_from_directory] and the parts of
      [speech_to_text/pipeline.py] built on them.

    Exceptions are values of a [result] type; remote services, external tools
    and the file system are explicit arguments or an explicit state. *)

From Stdlib Require Import Ascii String.
From stdpp Require Import base tactics option list strings gmap pretty sorting.

Local Open Scope string_scope.
Local Open Scope list_scope.
Local Open Scope nat_scope.

(** ** Results: a returned value or a raised exception *)

Inductive result (E A : Type) : Type :=
| Ok (a : A)
| Err (e : E).
Arguments Ok {E A} a.
Arguments Err {E A} e.

Definition is_ok {E A} (r : result E A) : bool :=
  match r with Ok _ => true | Err _ => false end.

(** ** Python [str] methods, on ASCII text *)

Module Text.

Definition code (c : ascii) : nat := nat_of_ascii c.

(** [str.isspace] on one ASCII character: TAB, LF, VT, FF, CR, the four
    separators 0x1c..0x1f and the space. *)
Definition isspace (c : ascii) : bool :=
  let n := code c in
  ((9 <=? n) && (n <=? 13)) || ((28 <=? n) && (n <=? 32)).

Definition isupper (c : ascii) : bool :=
  let n := code c in (65 <=? n) && (n <=? 90).

Definition islower (c : ascii) : bool :=
  let n := code c in (97 <=? n) && (n <=? 122).

Definition isalpha (c : ascii) : bool := isupper c || islower c.

Definition lower_char (c : ascii) : ascii :=
  if isupper c then ascii_of_nat (code c + 32) else c.

Definition upper_char (c : ascii) : ascii :=
  if islower c then ascii_of_nat (code c - 32) else c.

(** [s.lower()] *)
Fixpoint lower (s : string) : string :=
  match s with
  | EmptyString => EmptyString
  | String c r => String (lower_char c) (lower r)
  end.

(** [s.lstrip()] *)
Fixpoint lstrip (s : string) : string :=
  match s with
  | EmptyString => EmptyString
  | String c r => if isspace c then lstrip r else s
  end.

(** [s.rstrip()] *)
Fixpoint rstrip (s : string) : string :=
  match s with
  | EmptyString => EmptyString
  | String c r =>
      match rstrip r with
      | EmptyString => if isspace c then EmptyString else String c EmptyString
      | r' => String c r'
      end
  end.

(** [s.strip()] *)
Definition strip (s : string) : string := rstrip (lstrip s).

(** [s.title()]: a cased character is upper-cased when the character before
    it is not cased, and lower-cased otherwise; [prev] is CPython's
    [previous_is_cased]. *)
Fixpoint title_from (prev : bool) (s : string) : string :=
  match s with
  | EmptyString => EmptyString
  | String c r =>
      let c' := if prev then lower_char c else upper_char c in
      String c' (title_from (isalpha c) r)
  end.

Definition title (s : string) : string := title_from false s.

(** [s.startswith(p)] *)
Fixpoint startswith (p s : string) : bool :=
  match p, s with
  | EmptyString, _ => true
  | String a p', String b s' => if Ascii.eqb a b then startswith p' s' else false
  | String _ _, EmptyString => false
  end.

(** [s[n:]] *)
Fixpoint drop (n : nat) (s : string) : string :=
  match n, s with
  | O, _ => s
  | S n', String _ r => drop n' r
  | S _, EmptyString => EmptyString
  end.

(** [s[:n]] *)
Fixpoint take (n : nat) (s : string) : string :=
  match n, s with
  | O, _ => EmptyString
  | S n', String c r => String c (take n' r)
  | S _, EmptyString => EmptyString
  end.

(** [s.endswith(p)] *)
Definition endswith (p s : string) : bool :=
  (String.length p <=? String.length s)
  && String.eqb (drop (String.length s - String.length p) s) p.

(** [s.rfind(ch)] when [i] is the index of the first character of [s];
    [None] is Python's [-1]. *)
Fixpoint rfind_from (i : nat) (ch : ascii) (s : string) : option nat :=
  match s with
  | EmptyString => None
  | String c r =>
      match rfind_from (S i) ch r with
      | Some j => Some j
      | None => if Ascii.eqb c ch then Some i else None
      end
  end.

Definition rfind (ch : ascii) (s : string) : option nat := rfind_from 0 ch s.

(** [s.rsplit(".", 1)[0]] *)
Definition rsplit_dot_head (s : string) : string :=
  match rfind "."%char s with
  | Some i => take i s
  | None => s
  end.

(** [s.split(ch)] *)
Fixpoint split (ch : ascii) (s : string) : list string :=
  match s with
  | EmptyString => [EmptyString]
  | String c r =>
      if Ascii.eqb c ch then EmptyString :: split ch r
      else match split ch r with
           | x :: xs => String c x :: xs
           | [] => [String c EmptyString]
           end
  end.

(** [sep.join(l)] *)
Fixpoint join (sep : string) (l : list string) : string :=
  match l with
  | [] => EmptyString
  | [x] => x
  | x :: r => x +:+ sep +:+ join sep r
  end.

(** [ch in s] *)
Fixpoint contains (ch : ascii) (s : string) : bool :=
  match s with
  | EmptyString => false
  | String c r => Ascii.eqb c ch || contains ch r
  end.

(** [repr(s)]: the text between single quotes, or between double quotes
    when it holds a single quote and no double quote; the delimiter and the
    backslash are escaped, and so are the control characters. *)
Definition hex_digit (n : nat) : ascii :=
  ascii_of_nat (if n <? 10 then 48 + n else 87 + n).

Definition repr_char (quote c : ascii) : string :=
  let n := code c in
  if Ascii.eqb c quote || (n =? 92) then String "092" (String c EmptyString)
  else if n =? 9 then "\t"
  else if n =? 10 then "\n"
  else if n =? 13 then "\r"
  else if (n <? 32) || (n =? 127)
  then String "092" (String "x" (String (hex_digit (n / 16))
                                    (String (hex_digit (n mod 16)) EmptyString)))
  else String c EmptyString.

Fixpoint repr_body (quote : ascii) (s : string) : string :=
  match s with
  | EmptyString => EmptyString
  | String c r => repr_char quote c +:+ repr_body quote r
  end.

Definition repr (s : string) : string :=
  let quote : ascii :=
    if contains "'" s && negb (contains "034" s) then "034"%char else "'"%char in
  String quote (repr_body quote s) +:+ String quote EmptyString.

End Text.

(** ** llm_providers.py *)

Module Llm.

(** One entry of [chat_history]: the dict [{"role": _, "content": _}]. *)
Record message := Message { role : string; content : string }.

Definition SYSTEM_PROMPT : string :=
  "You are Monei, a friendly and helpful AI voice assistant. "
  +:+ "Keep responses concise (1-3 sentences) since they will be spoken aloud. "
  +:+ "Be warm, natural, and conversational.".

Inductive llm_error :=
| EmptyResponse            (* RuntimeError("Monei API returned an empty response") *)
| BackendError (msg : string). (* the client library or raise_for_status raised *)

(** [l[-n:]] for [n > 0]. *)
Definition last_n {A} (n : nat) (l : list A) : list A :=
  drop (length l - n) l.

(** The first two statements of both [ask] methods: append the user turn,
    then [if len(chat_history) > 20: chat_history[:] = chat_history[-20:]]. *)
Definition push_user (user_text : string) (chat_history : list message)
  : list message :=
  let h := chat_history ++ [Message "user" user_text] in
  if 20 <? length h then last_n 20 h else h.

(** *** The streaming decoder *)

(** What [json.loads] gives for the body of a data line, as far as
    [payload.get("event")] and [payload.get("data", "")] look at it. *)
Record payload := Payload { event : option string; data : option string }.

(** One line of [resp.iter_lines(decode_unicode=True)]: a line that is empty
    or does not start with "data: " (skipped by the loop), or a data line
    with its decoded body.  Bodies that [json.loads] rejects, and "data"
    values that are not strings, are outside the model. *)
Inductive sse_line :=
| Other (raw : string)
| DataLine (p : payload).

(** [payload.get("data", "")] *)
Definition get_data (p : payload) : string := default "" (data p).

(** The [for] loop of [_parse_sse], with [full_text] as accumulator; a
    complete event overwrites the accumulator and leaves the loop. *)
Fixpoint sse_loop (full_text : string) (lines : list sse_line) : string :=
  match lines with
  | [] => full_text
  | Other _ :: rest => sse_loop full_text rest
  | DataLine p :: rest =>
      if decide (event p = Some "complete") then Text.strip (get_data p)
      else if decide (event p = Some "token")
           then sse_loop (full_text +:+ get_data p) rest
           else sse_loop full_text rest
  end.

Definition _parse_sse (lines : list sse_line) : result llm_error string :=
  let full_text := sse_loop "" lines in
  if decide (full_text = "") then Err EmptyResponse else Ok full_text.

(** *** The two providers *)

(** [GroqProvider]: [create] stands for
    [self._client.chat.completions.create(...)] followed by
    [.choices[0].message.content], which may be [None]. *)
Definition groq_backend := list message -> result llm_error (option string).

(** [MoneiProvider]: [post] stands for [requests.post(..., json={"message":
    user_text}, stream=True)] and [raise_for_status], giving the lines of
    the event stream. *)
Definition monei_backend := string -> result llm_error (list sse_line).

Inductive provider :=
| GroqProvider (create : groq_backend)
| MoneiProvider (post : monei_backend).

(** [ask] mutates the list it is given: the second component is
    [chat_history] as the call leaves it, whether it returns or raises. *)
Definition groq_ask (create : groq_backend) (user_text : string)
    (chat_history : list message) : result llm_error string * list message :=
  let h := push_user user_text chat_history in
  let messages := Message "system" SYSTEM_PROMPT :: h in
  match create messages with
  | Err e => (Err e, h)
  | Ok completion =>
      let reply := Text.strip (default "" completion) in
      (Ok reply, h ++ [Message "assistant" reply])
  end.

Definition monei_ask (post : monei_backend) (user_text : string)
    (chat_history : list message) : result llm_error string * list message :=
  let h := push_user user_text chat_history in
  match post user_text with
  | Err e => (Err e, h)
  | Ok resp =>
      match _parse_sse resp with
      | Err e => (Err e, h)
      | Ok reply => (Ok reply, h ++ [Message "assistant" reply])
      end
  end.

Definition ask (p : provider) : string -> list message ->
                                result llm_error string * list message :=
  match p with
  | GroqProvider create => groq_ask create
  | MoneiProvider post => monei_ask post
  end.

(** A session: successive [ask] calls on the one shared history (the server
    keeps going after a call that raised). *)
Fixpoint ask_all (calls : list (provider * string)) (chat_history : list message)
  : list message :=
  match calls with
  | [] => chat_history
  | (p, user_text) :: rest => ask_all rest (ask p user_text chat_history).2
  end.

End Llm.

(** ** speech_to_text/collector.py *)

Module Collector.

(** *** Paths and the file system

    A path is identified by its [pathlib] parts: the text between slashes,
    without empty and "." parts.  Relative paths are looked up from the root
    (the working directory is the root), and ".." and links are outside the
    model. *)

Abbreviation path := (list string).

Inductive node :=
| File (content : list Byte.byte)
| Dir.

Abbreviation fs := (gmap (list string) node).

Inductive os_error :=
| ENOENT (p : path)       (* FileNotFoundError *)
| EEXIST (p : path)       (* FileExistsError *)
| ENOTDIR (p : path)      (* NotADirectoryError *)
| EISDIR (p : path)       (* IsADirectoryError *)
| SameFileError (p : path).

Definition is_part (c : string) : bool :=
  negb (String.eqb c "") && negb (String.eqb c ".").

Definition parts (s : string) : path :=
  List.filter is_part (Text.split "/"%char s).

(** The root of a path: none, one slash, or two slashes ([pathlib] keeps
    both slashes of a text that starts with exactly two). *)
Inductive root_kind :=
| Relative
| Slash
| TwoSlashes.

Definition root_str (r : root_kind) : string :=
  match r with
  | Relative => ""
  | Slash => "/"
  | TwoSlashes => "//"
  end.

Definition root_of (s : string) : root_kind :=
  if Text.startswith "//" s && negb (Text.startswith "///" s) then TwoSlashes
  else if Text.startswith "/" s then Slash
  else Relative.

(** [Path(s)] and [str(p)] *)
Record Path := MkPath { anchor : root_kind; comps : path }.

Definition Path_of (s : string) : Path := MkPath (root_of s) (parts s).

Definition Path_str (p : Path) : string :=
  match anchor p, comps p with
  | Relative, [] => "."
  | r, cs => root_str r +:+ Text.join "/" cs
  end.

(** [p / name] for a [name] that is a single part *)
Definition Path_join (p : Path) (name : string) : Path :=
  MkPath (anchor p) (comps p ++ List.filter is_part [name]).

(** [p.parent] *)
Definition Path_parent (p : Path) : Path :=
  MkPath (anchor p) (removelast (comps p)).

(** [Path(s).name] *)
Definition Path_name (s : string) : string := List.last (parts s) "".

(** [PurePath.suffix]: [i = name.rfind(".")], and [name[i:]] when
    [0 < i < len(name) - 1]. *)
Definition suffix_of_name (name : string) : string :=
  match Text.rfind "."%char name with
  | Some i =>
      if (0 <? i) && (S i <? String.length name) then Text.drop i name else ""
  | None => ""
  end.

Definition Path_suffix (s : string) : string := suffix_of_name (Path_name s).

(** [Path(s).stem] *)
Definition Path_stem (s : string) : string :=
  let name := Path_name s in
  Text.take (String.length name - String.length (suffix_of_name name)) name.

Definition stat (m : fs) (p : path) : option node :=
  match p with
  | [] => Some Dir
  | _ => m !! p
  end.

(** Whether the text can name a regular file: it does not end with a slash
    or with a "." part, which only a directory can carry. *)
Definition names_file (s : string) : bool :=
  is_part (List.last (Text.split "/"%char s) "").

(** [os.path.exists]: false for the empty string, and for a regular file
    addressed as if it were a directory. *)
Definition exists_ (m : fs) (s : string) : bool :=
  match stat m (parts s) with
  | Some (File _) => names_file s
  | Some Dir => negb (String.eqb s "")
  | None => false
  end.

(** *** The module *)

Definition AUDIO_EXTENSIONS : gset string :=
  {[ ".wav"; ".mp3"; ".flac"; ".ogg"; ".m4a"; ".aac"; ".wma" ]}.

Definition VIDEO_EXTENSIONS : gset string :=
  {[ ".mp4"; ".mkv"; ".avi"; ".mov"; ".webm"; ".flv"; ".wmv" ]}.

(** [Path.mkdir(parents=True, exist_ok=True)], one part at a time: [above]
    is the directory reached so far.  A regular file in the way is an
    error, which names the directory asked for. *)
Fixpoint mkdir_parents (m : fs) (above : path) (todo : list string)
  : result os_error fs :=
  match todo with
  | [] => Ok m
  | c :: rest =>
      let q := above ++ [c] in
      match stat m q with
      | Some Dir => mkdir_parents m q rest
      | Some (File _) =>
          Err (match rest with [] => EEXIST q | _ => ENOTDIR (q ++ rest) end)
      | None => mkdir_parents (<[q := Dir]> m) q rest
      end
  end.

Definition ensure_dir (m : fs) (s : string) : result os_error (Path * fs) :=
  match mkdir_parents m [] (parts s) with
  | Ok m' => Ok (Path_of s, m')
  | Err e => Err e
  end.

Definition is_audio (filepath : string) : bool :=
  bool_decide (Text.lower (Path_suffix filepath) ∈ AUDIO_EXTENSIONS).

Definition is_video (filepath : string) : bool :=
  bool_decide (Text.lower (Path_suffix filepath) ∈ VIDEO_EXTENSIONS).

(** [shutil.copy2(src, dst)]: a destination that is a directory receives the
    file under the source's base name; copying a file onto itself is an
    error; the content is written over whatever file is there. *)
Definition copy2 (m : fs) (src dst : path) : result os_error fs :=
  let dst' :=
    match stat m dst with
    | Some Dir => dst ++ [List.last src ""]
    | _ => dst
    end in
  match stat m src with
  | None => Err (ENOENT src)
  | Some node_src =>
      if decide (src = dst') then Err (SameFileError src)
      else match node_src with
           | Dir => Err (EISDIR src)
           | File content =>
               match stat m dst' with
               | Some Dir => Err (EISDIR dst')
               | _ =>
                   match stat m (removelast dst') with
                   | Some Dir => Ok (<[dst' := File content]> m)
                   | Some (File _) => Err (ENOTDIR dst')
                   | None => Err (ENOENT dst')
                   end
               end
           end
  end.

Inductive collect_error :=
| FileNotFound (filepath : string)       (* FileNotFoundError *)
| UnsupportedFormat (suffix : string)    (* ValueError *)
| OSError (e : os_error).

(** The second component is the file system as the call leaves it. *)
Definition collect_local_file (m : fs) (filepath output_dir : string)
  : result collect_error string * fs :=
  if negb (exists_ m filepath) then (Err (FileNotFound filepath), m)
  else if negb (is_audio filepath || is_video filepath)
  then (Err (UnsupportedFormat (Path_suffix filepath)), m)
  else match ensure_dir m output_dir with
       | Err e => (Err (OSError e), m)
       | Ok (dest_dir, m1) =>
           let dest_path := Path_join dest_dir (Path_name filepath) in
           match copy2 m1 (parts filepath) (comps dest_path) with
           | Err e => (Err (OSError e), m1)
           | Ok m2 => (Ok (Path_str dest_path), m2)
           end
       end.

End Collector.

(** ** speech_to_text/yarngpt_tts.py *)

Module Tts.
Import Collector.

Definition YARNGPT_API_URL : string := "https://yarngpt.ai/api/v1/tts".

(** The dict, in insertion order. *)
Definition YARNGPT_VOICES : list (string * string) :=
  [ ("Idera", "Melodic, gentle");
    ("Emma", "Authoritative, deep");
    ("Zainab", "Soothing, gentle");
    ("Osagie", "Smooth, calm");
    ("Jude", "Warm, confident");
    ("Chinenye", "Engaging, warm");
    ("Tayo", "Upbeat, energetic");
    ("Regina", "Mature, warm");
    ("Adaora", "Warm, Engaging");
    ("Umar", "Calm, smooth");
    ("Mary", "Energetic, youthful");
    ("Nonso", "Bold, resonant");
    ("Remi", "Melodious, warm");
    ("Adam", "Deep, Clear") ].

(** [YARNGPT_VOICES.keys()] *)
Definition list_voice_names : list string := YARNGPT_VOICES.*1.

Definition FORMATS : list string := ["mp3"; "wav"; "opus"; "flac"].

Inductive tts_error :=
| TextTooLong (len : nat)                    (* ValueError("Text too long ...") *)
| UnknownVoice (voice available : string)    (* ValueError("Unknown voice ...") *)
| InvalidFormat (response_format : string)   (* ValueError("Invalid format ...") *)
| MissingApiKey                              (* ValueError from _get_api_key *)
| SynthesisFailed (status : nat) (error_msg : string)  (* RuntimeError *)
| WriteFailed (e : os_error).

(** The JSON body and the bearer token of the one POST. *)
Record request := Request {
  req_key : string;
  req_text : string;
  req_voice : string;
  req_format : string }.

Record response := Response {
  status_code : nat;
  resp_content : list Byte.byte;
  resp_text : string }.

(** What the function acts on: the files, the YARNGPT_API_KEY variable, the
    remote service, and the requests sent so far (oldest first). *)
Record world := World {
  files : fs;
  env_key : option string;
  service : request -> response;
  sent : list request }.

(** [os.environ.get("YARNGPT_API_KEY", "")], refused when empty *)
Definition _get_api_key (w : world) : result tts_error string :=
  match env_key w with
  | Some (String c k) => Ok (String c k)
  | _ => Err MissingApiKey
  end.

(** [open(output_path, "wb").write(content)] *)
Definition write_bytes (m : fs) (p : path) (content : list Byte.byte)
  : result os_error fs :=
  match stat m p with
  | Some Dir => Err (EISDIR p)
  | _ =>
      match stat m (removelast p) with
      | Some Dir => Ok (<[p := File content]> m)
      | Some (File _) => Err (ENOTDIR p)
      | None => Err (ENOENT p)
      end
  end.

Definition synthesize_speech (w : world) (text output_path voice
    response_format : string) (api_key : option string)
  : result tts_error string * world :=
  if 2000 <? String.length text then (Err (TextTooLong (String.length text)), w)
  else
    let voice := Text.title (Text.strip voice) in
    if negb (bool_decide (voice ∈ list_voice_names))
    then (Err (UnknownVoice voice (Text.join ", " list_voice_names)), w)
    else if negb (bool_decide (response_format ∈ FORMATS))
    then (Err (InvalidFormat response_format), w)
    else
      let key :=
        match api_key with
        | Some (String c k) => Ok (String c k)
        | _ => _get_api_key w
        end in
      match key with
      | Err e => (Err e, w)
      | Ok key =>
          let payload := Request key text voice response_format in
          let response := service w payload in
          let w1 := World (files w) (env_key w) (service w) (sent w ++ [payload]) in
          if status_code response =? 200 then
            match ensure_dir (files w1)
                    (Path_str (Path_parent (Path_of output_path))) with
            | Err e => (Err (WriteFailed e), w1)
            | Ok (_, m1) =>
                let w2 := World m1 (env_key w) (service w) (sent w1) in
                match write_bytes m1 (parts output_path) (resp_content response) with
                | Err e => (Err (WriteFailed e), w2)
                | Ok m2 =>
                    (Ok output_path, World m2 (env_key w) (service w) (sent w1))
                end
            end
          else
            (Err (SynthesisFailed (status_code response)
                    (Text.take 300 (resp_text response))), w1)
      end.

End Tts.

(** ** speech_to_text/processor.py *)

Module Processor.
Import Collector.

(** A raised exception: its class and [str(e)]. *)
Record exn := Exn { cls : string; str : string }.

(** The exception a failed system call on the path [filename] raises:
    [str(e)] reads "[Errno 20] Not a directory: 'blocked/extracted_audio'",
    with the path the call was given.  (Creating a directory raises only the
    second and the third.) *)
Definition os_error_text (errno strerror filename : string) : string :=
  "[Errno " +:+ errno +:+ "] " +:+ strerror +:+ ": " +:+ Text.repr filename.

Definition exn_of_os (filename : string) (e : os_error) : exn :=
  match e with
  | ENOENT _ =>
      Exn "FileNotFoundError" (os_error_text "2" "No such file or directory" filename)
  | EEXIST _ => Exn "FileExistsError" (os_error_text "17" "File exists" filename)
  | ENOTDIR _ => Exn "NotADirectoryError" (os_error_text "20" "Not a directory" filename)
  | EISDIR _ => Exn "IsADirectoryError" (os_error_text "21" "Is a directory" filename)
  | SameFileError _ =>
      Exn "SameFileError"
        (Text.repr filename +:+ " and " +:+ Text.repr filename +:+ " are the same file")
  end.

(** [subprocess.CompletedProcess] *)
Record completed := Completed { returncode : Z; stderr : string }.

(** The files, what was printed, and the commands run (oldest first). *)
Record world := World {
  files : fs;
  stdout : list string;
  commands : list (list string) }.

Definition print (line : string) (w : world) : world :=
  World (files w) (stdout w ++ [line]) (commands w).

(** [os.path.basename] *)
Definition basename (s : string) : string :=
  match Text.rfind "/"%char s with
  | Some i => Text.drop (S i) s
  | None => s
  end.

(** [os.path.join(a, b)] for a relative [b] *)
Definition path_join (a b : string) : string :=
  if String.eqb a "" then b
  else if Text.endswith "/" a then a +:+ b
  else a +:+ "/" +:+ b.

Section WithBackends.

(** [Wave] is the array [_load_audio_as_numpy] returns, [Stamp] the type
    of segment boundaries. *)
Context {Wave Stamp : Type}.

Record segment := Segment { seg_start : Stamp; seg_end : Stamp; seg_text : string }.

(** The dict returned by [model.transcribe]. *)
Record whisper_result := WhisperResult {
  r_text : string;
  r_language : option string;
  r_segments : option (list segment) }.

(** The dict with keys audio_path, text, language, segments. *)
Record transcription := Transcription {
  t_audio_path : string;
  t_text : string;
  t_language : string;
  t_segments : list segment }.

(** What lies outside the module: ffmpeg, moviepy, whisper, and the WAV
    reader.  An optional import is [None] when it raises ImportError;
    [subprocess_run] raises when the program cannot be started, and returns
    the completed process otherwise. *)
Record tools := Tools {
  which_ffmpeg : option string;
  imageio_ffmpeg : option string;
  subprocess_run : list string -> fs -> result exn completed * fs;
  moviepy : option (string -> string -> fs -> result exn fs);
  whisper : option (string -> Wave -> option string -> result exn whisper_result);
  _load_audio_as_numpy : fs -> string -> result exn Wave }.

Variable t : tools.

Definition _get_ffmpeg_path : string :=
  match which_ffmpeg t with
  | Some (String c p) => String c p
  | _ =>
      match imageio_ffmpeg t with
      | Some p => p
      | None => "ffmpeg"
      end
  end.

(** The argument list handed to [subprocess.run]. *)
Definition ffmpeg_cmd (ffmpeg_path audio_path wav_path : string) : list string :=
  [ffmpeg_path; "-y"; "-i"; audio_path; "-ar"; "16000"; "-ac"; "1";
   "-f"; "wav"; wav_path].

Definition _ensure_wav (w : world) (audio_path : string)
  : result exn string * world :=
  if Text.endswith ".wav" (Text.lower audio_path) then (Ok audio_path, w)
  else
    let ffmpeg_path := _get_ffmpeg_path in
    let wav_path := Text.rsplit_dot_head audio_path +:+ "_converted.wav" in
    let w := print ("  [Converting] " +:+ audio_path +:+ " -> WAV (via "
                    +:+ basename ffmpeg_path +:+ ")") w in
    let cmd := ffmpeg_cmd ffmpeg_path audio_path wav_path in
    let '(result, m) := subprocess_run t cmd (files w) in
    let w := World m (stdout w) (commands w ++ [cmd]) in
    match result with
    | Err e => (Err e, w)
    | Ok result =>
        if negb (returncode result =? 0)%Z then
          (Ok audio_path,
           print ("  [Warning] ffmpeg conversion failed: "
                  +:+ Text.take 200 (stderr result)) w)
        else (Ok wav_path, w)
    end.

Definition extract_audio_from_video (w : world) (video_path output_dir : string)
  : result exn string * world :=
  match moviepy t with
  | None => (Err (Exn "ImportError" "moviepy is required. Install: pip install moviepy"), w)
  | Some write_audiofile =>
      if negb (exists_ (files w) video_path)
      then (Err (Exn "FileNotFoundError" ("Video not found: " +:+ video_path)), w)
      else match ensure_dir (files w) output_dir with
           | Err e => (Err (exn_of_os (Path_str (Path_of output_dir)) e), w)
           | Ok (dest_dir, m) =>
               let audio_filename := Path_stem video_path +:+ ".wav" in
               let audio_path := Path_str (Path_join dest_dir audio_filename) in
               let w := print ("  [Extracting audio] " +:+ video_path +:+ " -> "
                               +:+ audio_path)
                              (World m (stdout w) (commands w)) in
               match write_audiofile video_path audio_path (files w) with
               | Err e => (Err e, w)
               | Ok m' => (Ok audio_path, World m' (stdout w) (commands w))
               end
           end
  end.

Definition strip_segment (seg : segment) : segment :=
  Segment (seg_start seg) (seg_end seg) (Text.strip (seg_text seg)).

Definition transcribe_audio (w : world) (audio_path model_size : string)
    (language : option string) : result exn transcription * world :=
  match whisper t with
  | None =>
      (Err (Exn "ImportError"
              "openai-whisper is required. Install: pip install openai-whisper"), w)
  | Some model_transcribe =>
      if negb (exists_ (files w) audio_path)
      then (Err (Exn "FileNotFoundError" ("Audio file not found: " +:+ audio_path)), w)
      else
        let w := print ("  [Transcribing] " +:+ audio_path +:+ " (model: "
                        +:+ model_size +:+ ")") w in
        match _ensure_wav w audio_path with
        | (Err e, w) => (Err e, w)
        | (Ok wav_path, w) =>
        match _load_audio_as_numpy t (files w) wav_path with
        | Err e => (Err e, w)
        | Ok audio_array =>
            let options :=
              match language with
              | Some (String c l) => Some (String c l)
              | _ => None
              end in
            match model_transcribe model_size audio_array options with
            | Err e => (Err e, w)
            | Ok result =>
                let transcription :=
                  Transcription audio_path (Text.strip (r_text result))
                    (default "unknown" (r_language result))
                    (strip_segment <$> default [] (r_segments result)) in
                (Ok transcription,
                 print ("  [Transcribed] Language: " +:+ t_language transcription
                        +:+ ", Length: "
                        +:+ pretty (String.length (t_text transcription))
                        +:+ " chars") w)
            end
        end
        end
  end.

Definition process_file (w : world) (filepath output_dir model_size : string)
    (language : option string) : result exn transcription * world :=
  let audio_dir := path_join output_dir "extracted_audio" in
  if is_video filepath then
    match extract_audio_from_video w filepath audio_dir with
    | (Err e, w) => (Err e, w)
    | (Ok audio_path, w) => transcribe_audio w audio_path model_size language
    end
  else if is_audio filepath then
    transcribe_audio w filepath model_size language
  else (Err (Exn "ValueError" ("Unsupported file format: " +:+ filepath)), w).

(** One element of the list [process_batch] returns: a transcription, or
    the dict [{"audio_path": fp, "error": str(e)}]. *)
Inductive batch_item :=
| Transcribed (r : transcription)
| Failed (audio_path error : string).

(** The line printed at the start of each item; it begins with a newline. *)
Definition batch_header (i total : nat) (fp : string) : string :=
  String "010"%char "--- Processing file " +:+ pretty i +:+ "/"
  +:+ pretty total +:+ ": " +:+ fp +:+ " ---".

(** The loop of [process_batch]: [results] is the list built so far, [i]
    the counter of [enumerate(filepaths, 1)], [total] is
    [len(filepaths)]. *)
Fixpoint process_batch_loop (w : world) (results : list batch_item)
    (i total : nat) (todo : list string) (output_dir model_size : string)
    (language : option string) : list batch_item * world :=
  match todo with
  | [] => (results, w)
  | fp :: rest =>
      let w := print (batch_header i total fp) w in
      match process_file w fp output_dir model_size language with
      | (Ok result, w) =>
          process_batch_loop w (results ++ [Transcribed result]) (S i) total
            rest output_dir model_size language
      | (Err e, w) =>
          let w := print ("  [Error] Failed to process " +:+ fp +:+ ": "
                          +:+ str e) w in
          process_batch_loop w (results ++ [Failed fp (str e)]) (S i) total
            rest output_dir model_size language
      end
  end.

Definition process_batch (w : world) (filepaths : list string)
    (output_dir model_size : string) (language : option string)
  : list batch_item * world :=
  process_batch_loop w [] 1 (length filepaths) filepaths
    output_dir model_size language.

End WithBackends.

End Processor.

(** ** llm_providers.py: the factory *)

Module LlmFactory.
Import Llm.

Inductive config_error :=
| KeyNotSet (variable : string)            (* RuntimeError("<variable> is not set") *)
| PackageMissing                           (* RuntimeError("The 'groq' package is required ...") *)
| UnknownProvider (name choices : string). (* RuntimeError("Unknown LLM_PROVIDER ...") *)

(** What the constructors reach outside the module: the groq package ([None]
    when the import fails) with its [Groq(api_key=...)] client, and the HTTP
    endpoint the Monei provider posts to with its key in the header. *)
Record platform := Platform {
  groq_package : option (string -> groq_backend);
  monei_http : string -> monei_backend }.

(** [os.getenv(name)] on the environment as a dict *)
Definition getenv (env : gmap string string) (name : string) : option string :=
  env !! name.

(** [GroqProvider.__init__] *)
Definition GroqProvider_init (env : gmap string string) (pl : platform)
  : result config_error provider :=
  match getenv env "GROQ_API_KEY" with
  | Some (String c k) =>
      match groq_package pl with
      | None => Err PackageMissing
      | Some Groq => Ok (GroqProvider (Groq (String c k)))
      end
  | _ => Err (KeyNotSet "GROQ_API_KEY")
  end.

(** [MoneiProvider.__init__] *)
Definition MoneiProvider_init (env : gmap string string) (pl : platform)
  : result config_error provider :=
  match getenv env "MONEI_API_KEY" with
  | Some (String c k) => Ok (MoneiProvider (monei_http pl (String c k)))
  | _ => Err (KeyNotSet "MONEI_API_KEY")
  end.

(** The dict of provider classes, in insertion order. *)
Definition _PROVIDERS
  : list (string * (gmap string string -> platform -> result config_error provider)) :=
  [("groq", GroqProvider_init); ("monei", MoneiProvider_init)].

(** [d.get(key)] on a dict kept as an association list *)
Fixpoint dict_get {V} (d : list (string * V)) (key : string) : option V :=
  match d with
  | [] => None
  | (k, v) :: rest => if String.eqb k key then Some v else dict_get rest key
  end.

Definition create_provider (env : gmap string string) (pl : platform)
  : result config_error provider :=
  let name := Text.strip (Text.lower (default "monei" (getenv env "LLM_PROVIDER"))) in
  match dict_get _PROVIDERS name with
  | None => Err (UnknownProvider name (Text.join ", " (_PROVIDERS.*1)))
  | Some cls => cls env pl
  end.

End LlmFactory.

(** ** speech_to_text/yarngpt_tts.py: batches *)

Module TtsBatch.
Import Collector Tts.

Fixpoint zeros (n : nat) : string :=
  match n with
  | O => EmptyString
  | S n' => String "0" (zeros n')
  end.

(** The format [{i:03d}] *)
Definition zfill3 (i : nat) : string :=
  let digits := pretty i in
  zeros (3 - String.length digits) +:+ digits.

(** The path of the [i]-th output of a batch. *)
Definition batch_output_path (output_dir : string) (i : nat) (response_format : string)
  : string :=
  Processor.path_join output_dir
    ("tts_output_" +:+ zfill3 i +:+ "." +:+ response_format).

(** The loop of [batch_synthesize]; [i] is the counter of
    [enumerate(texts, 1)]. *)
Fixpoint batch_synthesize_loop (w : world) (output_paths : list (option string))
    (i : nat) (todo : list string) (output_dir voice response_format : string)
    (api_key : option string) : list (option string) * world :=
  match todo with
  | [] => (output_paths, w)
  | text :: rest =>
      let output_path := batch_output_path output_dir i response_format in
      match synthesize_speech w text output_path voice response_format api_key with
      | (Ok result, w) =>
          batch_synthesize_loop w (output_paths ++ [Some result]) (S i) rest
            output_dir voice response_format api_key
      | (Err _, w) =>
          batch_synthesize_loop w (output_paths ++ [None]) (S i) rest
            output_dir voice response_format api_key
      end
  end.

Definition batch_synthesize (w : world) (texts : list string)
    (output_dir voice response_format : string) (api_key : option string)
  : list (option string) * world :=
  batch_synthesize_loop w [] 1 texts output_dir voice response_format api_key.

End TtsBatch.

(** ** speech_to_text/collector.py: directories *)

Module CollectorDir.
Import Collector.

(** [os.path.isdir] *)
Definition isdir (m : fs) (s : string) : bool :=
  match stat m (parts s) with
  | Some Dir => negb (String.eqb s "")
  | _ => false
  end.

(** [sorted(files)] *)
Definition sorted (files : list string) : list string :=
  merge_sort String.le files.

(** The inner loop of [collect_from_directory] over the files of one
    directory; a file whose copy raises is skipped. *)
Fixpoint collect_files (m : fs) (collected : list string) (root : string)
    (files : list string) (output_dir : string) : list string * fs :=
  match files with
  | [] => (collected, m)
  | fname :: rest =>
      let fpath := Processor.path_join root fname in
      if is_audio fpath || is_video fpath then
        match collect_local_file m fpath output_dir with
        | (Ok result, m) => collect_files m (collected ++ [result]) root rest output_dir
        | (Err _, m) => collect_files m collected root rest output_dir
        end
      else collect_files m collected root rest output_dir
  end.

(** The outer loop; [walk] is what [os.walk(source_dir)] yields, as the
    pairs of a directory and the names of its files. *)
Fixpoint collect_walk (m : fs) (collected : list string)
    (walk : list (string * list string)) (output_dir : string) : list string * fs :=
  match walk with
  | [] => (collected, m)
  | (root, files) :: rest =>
      let '(collected, m) := collect_files m collected root (sorted files) output_dir in
      collect_walk m collected rest output_dir
  end.

Inductive directory_error :=
| NotADirectoryError (source_dir : string).

Definition collect_from_directory (m : fs) (walk : list (string * list string))
    (source_dir output_dir : string) : result directory_error (list string) * fs :=
  if negb (isdir m source_dir) then (Err (NotADirectoryError source_dir), m)
  else
    let '(collected, m) := collect_walk m [] walk output_dir in
    (Ok collected, m).

End CollectorDir.

(** ** speech_to_text/pipeline.py *)

Module Pipeline.
Import Collector Processor Tts TtsBatch.

Section WithStamp.
Context {Stamp : Type}.

(** The attributes of a [SpeechPipeline]; the four directories are
    functions of [output_dir]. *)
Record SpeechPipeline := MkPipeline {
  output_dir : string;
  whisper_model : string;
  collected_files : list string;
  transcriptions : list (@batch_item Stamp) }.

Definition collect_dir (output_dir : string) : string := path_join output_dir "collected".
Definition audio_dir (output_dir : string) : string := path_join output_dir "extracted_audio".
Definition transcription_dir (output_dir : string) : string := path_join output_dir "transcriptions".
Definition tts_dir (output_dir : string) : string := path_join output_dir "tts_output".

(** The [for d in [...]: ensure_dir(d)] of the constructor. *)
Fixpoint ensure_dirs (m : fs) (dirs : list string) : result os_error unit * fs :=
  match dirs with
  | [] => (Ok tt, m)
  | d :: rest =>
      match ensure_dir m d with
      | Err e => (Err e, m)
      | Ok (_, m) => ensure_dirs m rest
      end
  end.

(** [SpeechPipeline.__init__] *)
Definition init (m : fs) (output_dir whisper_model : string)
  : result os_error SpeechPipeline * fs :=
  match ensure_dirs m [collect_dir output_dir; audio_dir output_dir;
                       transcription_dir output_dir; tts_dir output_dir] with
  | (Err e, m) => (Err e, m)
  | (Ok _, m) => (Ok (MkPipeline output_dir whisper_model [] []), m)
  end.

(** [[t["text"] for t in self.transcriptions if "text" in t and t["text"]]] *)
Definition spoken_texts (transcriptions : list (@batch_item Stamp)) : list string :=
  omap (fun t => match t with
                 | Transcribed r =>
                     match t_text r with
                     | EmptyString => None
                     | text => Some text
                     end
                 | Failed _ _ => None
                 end) transcriptions.

Definition speak_transcriptions (w : Tts.world) (self : SpeechPipeline)
    (voice response_format : string) : list (option string) * Tts.world :=
  match spoken_texts (transcriptions self) with
  | [] => ([], w)
  | texts => batch_synthesize w texts (tts_dir (output_dir self)) voice response_format None
  end.

End WithStamp.

End Pipeline.

(** * Notions used by the statements *)

Module LlmSpec.
Import Llm.

(** The decoded data lines of a stream, in order. *)
Definition events (lines : list sse_line) : list payload :=
  omap (fun l => match l with DataLine p => Some p | Other _ => None end) lines.

Definition first_complete (lines : list sse_line) : option payload :=
  head (filter (fun p => event p = Some "complete") (events lines)).

(** The payloads of all token events, concatenated in order. *)
Definition token_text (lines : list sse_line) : string :=
  foldr String.append ""
    (get_data <$> filter (fun p => event p = Some "token") (events lines)).

(** The text a stream yields: the stripped payload of its first complete
    event, or else its concatenated token payloads. *)
Definition produced_text (lines : list sse_line) : string :=
  match first_complete lines with
  | Some p => Text.strip (get_data p)
  | None => token_text lines
  end.

(** Empty, or made of white space only. *)
Fixpoint whitespace_only (s : string) : bool :=
  match s with
  | EmptyString => true
  | String c r => Text.isspace c && whitespace_only r
  end.

Definition token (d : string) : sse_line := DataLine (Payload (Some "token") (Some d)).
Definition complete (d : string) : sse_line := DataLine (Payload (Some "complete") (Some d)).

End LlmSpec.

Module TtsSpec.

(** A word as the voice table spells them: one upper-case letter followed
    by lower-case letters. *)
Fixpoint all_lower (s : string) : bool :=
  match s with
  | EmptyString => true
  | String c r => Text.islower c && all_lower r
  end.

Definition capitalized (s : string) : bool :=
  match s with
  | EmptyString => false
  | String c r => Text.isupper c && all_lower r
  end.

(** [n] copies of [c] *)
Fixpoint chars (n : nat) (c : ascii) : string :=
  match n with
  | O => EmptyString
  | S n' => String c (chars n' c)
  end.

Definition ok_service : Tts.request -> Tts.response :=
  fun _ => Tts.Response 200 [] "".

(** A world with no files yet, a key in the environment, and a service
    that answers 200. *)
Definition fresh_world : Tts.world :=
  Tts.World ∅ (Some "sk_live_test") ok_service [].

Definition AVAILABLE : string :=
  "Idera, Emma, Zainab, Osagie, Jude, Chinenye, Tayo, Regina, Adaora, Umar, Mary, Nonso, Remi, Adam".

End TtsSpec.

Module CollectorSpec.
Import Collector.

(** [ch not in s] *)
Fixpoint no_char (ch : ascii) (s : string) : bool :=
  match s with
  | EmptyString => true
  | String c r => negb (Ascii.eqb c ch) && no_char ch r
  end.

(** A part as [parts] produces them: not empty, not ".", without a slash. *)
Definition clean (c : string) : bool := is_part c && no_char "/"%char c.

Definition hello : list Byte.byte := [Byte.x68; Byte.x65; Byte.x6c; Byte.x6c; Byte.x6f].

(** A directory "out" that already holds "a.wav". *)
Definition collected_fs : fs :=
  <[ ["out"; "a.wav"] := File hello ]> (<[ ["out"] := Dir ]> ∅).

(** A directory "music" that holds "Song.MP3" and "notes.txt". *)
Definition music_fs : fs :=
  <[ ["music"; "notes.txt"] := File [] ]>
    (<[ ["music"; "Song.MP3"] := File hello ]> (<[ ["music"] := Dir ]> ∅)).

End CollectorSpec.

Module ProcessorSpec.
Import Collector Processor.

(** The element a batch records for the outcome of one file. *)
Definition item_of {Stamp : Type} (fp : string)
    (r : result exn (@transcription Stamp)) : @batch_item Stamp :=
  match r with
  | Ok result => Transcribed result
  | Err e => Failed fp (str e)
  end.

(** Tools for the examples: an ffmpeg that always exits with status 1, no
    moviepy, a recognizer that always hears the same sentence. *)
Definition demo_tools : @tools (list nat) nat :=
  Tools (Some "/usr/bin/ffmpeg") None
    (fun _ m => (Ok (Completed 1 "Invalid data found when processing input"), m))
    None
    (Some (fun _ _ _ =>
       Ok (WhisperResult " hello world " (Some "en")
             (Some [Segment 0 2 " hello world "]))))
    (fun _ _ => Ok []).

(** A directory "clips" holding "valid.wav" and "talk.mp3"; nothing printed,
    nothing run. *)
Definition demo_world : world :=
  World (<[ ["clips"; "talk.mp3"] := File [] ]>
           (<[ ["clips"; "valid.wav"] := File [] ]> (<[ ["clips"] := Dir ]> ∅)))
        [] [].


(** A machine with neither ffmpeg nor moviepy nor whisper. *)
Definition bare_tools : @tools (list nat) nat :=
  Tools None None
    (fun _ m =>
       (Err (Exn "FileNotFoundError"
               (os_error_text "2" "No such file or directory" "ffmpeg")), m))
    None None (fun _ _ => Ok []).

(** Tools with moviepy: the audio track is written, as an empty file, at
    the path [write_audiofile] is given. *)
Definition video_tools : @tools (list nat) nat :=
  Tools (Some "/usr/bin/ffmpeg") None
    (fun _ m => (Ok (Completed 1 "Invalid data found when processing input"), m))
    (Some (fun _ audio_path m => Ok (<[ parts audio_path := File [] ]> m)))
    (Some (fun _ _ _ =>
       Ok (WhisperResult " hello world " (Some "en")
             (Some [Segment 0 2 " hello world "]))))
    (fun _ _ => Ok []).

(** A directory "clips" holding the video "Talk.MP4". *)
Definition video_world : world :=
  World (<[ ["clips"; "Talk.MP4"] := File [] ]> (<[ ["clips"] := Dir ]> ∅)) [] [].

End ProcessorSpec.

Module TtsMoreSpec.
Import Tts.

(** The key a call ends up using: the argument when it is given and not
    empty, else the environment variable when it is set and not empty. *)
Definition resolved_key (api_key : option string) (w : world) : option string :=
  match api_key with
  | Some (String c k) => Some (String c k)
  | _ =>
      match env_key w with
      | Some (String c k) => Some (String c k)
      | _ => None
      end
  end.

(** The three checks on the arguments. *)
Definition valid_request (text voice response_format : string) : bool :=
  (String.length text <=? 2000)
  && bool_decide (Text.title (Text.strip voice) ∈ list_voice_names)
  && bool_decide (response_format ∈ FORMATS).

(** A world whose service answers 503 with a long body. *)
Definition failing_world : world :=
  World ∅ (Some "sk_live_test")
    (fun _ => Response 503 [] (TtsSpec.chars 400 "x")) [].

End TtsMoreSpec.

Module CollectorDirSpec.
Import Collector.

(** A file [collect_from_directory] takes: its extension is audio or
    video. *)
Definition supported (fpath : string) : bool := is_audio fpath || is_video fpath.

(** The supported files of a walk, in the order they are met: directory by
    directory, the names of one directory sorted. *)
Definition candidates (walk : list (string * list string)) : list string :=
  concat ((fun entry =>
             List.filter supported
               (Processor.path_join entry.1 <$> CollectorDir.sorted entry.2)) <$> walk).

(** One [collect_local_file] per file, each on the file system the previous
    one left; the paths of those that succeeded, in order. *)
Fixpoint collect_each (m : fs) (fpaths : list string) (output_dir : string)
  : list string * fs :=
  match fpaths with
  | [] => ([], m)
  | fpath :: rest =>
      let step := collect_local_file m fpath output_dir in
      let later := collect_each step.2 rest output_dir in
      (match step.1 with Ok p => p :: later.1 | Err _ => later.1 end, later.2)
  end.

End CollectorDirSpec.

Module PipelineSpec.
Import Processor.

(** The transcript an entry of [transcriptions] carries: the text of a
    transcription, nothing for an error record. *)
Definition item_text {Stamp : Type} (item : @batch_item Stamp) : string :=
  match item with
  | Transcribed r => t_text r
  | Failed _ _ => ""
  end.

(** The transcripts to speak: those that are not empty, in order. *)
Definition transcripts {Stamp : Type} (items : list (@batch_item Stamp)) : list string :=
  List.filter (fun text => negb (String.eqb text "")) (item_text <$> items).

(** A pipeline after a batch of four files: one failed, one had nothing to
    say. *)
Definition spoken_pipeline : @Pipeline.SpeechPipeline nat :=
  Pipeline.MkPipeline "output" "base"
    ["clips/a.wav"; "clips/b.wav"; "clips/c.wav"; "clips/d.wav"]
    [Failed "clips/a.wav" "Audio file not found: clips/a.wav";
     Transcribed (Transcription "clips/b.wav" "good morning" "en" []);
     Transcribed (Transcription "clips/c.wav" "" "en" []);
     Transcribed (Transcription "clips/d.wav" "good night" "en" [])].

End PipelineSpec.

(** * Properties *)

Section StringFacts.

Lemma append_nil_r (s : string) : s +:+ "" = s.
Proof.
  induction s as [|c s IH]; [reflexivity|].
  change (String c (s +:+ "") = String c s). by rewrite IH.
Qed.

Lemma append_cons (c : ascii) (a b : string) : String c a +:+ b = String c (a +:+ b).
Proof. reflexivity. Qed.

Lemma append_assoc (a b c : string) : (a +:+ b) +:+ c = a +:+ (b +:+ c).
Proof.
  induction a as [|x a IH]; [reflexivity|].
  by rewrite !append_cons, IH.
Qed.

End StringFacts.

(** ** The conversation adapter *)

Section LlmFacts.
Import Llm LlmSpec.

Lemma last_n_length {A} (n : nat) (l : list A) : length (last_n n l) = min n (length l).
Proof. unfold last_n. rewrite length_drop. lia. Qed.

Lemma push_user_eq (user_text : string) (h : list message) :
  push_user user_text h = drop (S (length h) - 20) (h ++ [Message "user" user_text]).
Proof.
  unfold push_user, last_n. rewrite length_app. cbn [length].
  rewrite Nat.add_1_r.
  destruct (Nat.ltb_spec 20 (S (length h))) as [Hlt|Hge]; [done|].
  replace (S (length h) - 20) with 0 by lia. done.
Qed.

Lemma push_user_length (user_text : string) (h : list message) :
  length (push_user user_text h) = min 20 (S (length h)).
Proof. rewrite push_user_eq, length_drop, length_app. cbn [length]. lia. Qed.

Lemma ask_history (p : provider) (user_text : string) (h : list message) :
  match ask p user_text h with
  | (Ok reply, h') => h' = push_user user_text h ++ [Message "assistant" reply]
  | (Err _, h') => h' = push_user user_text h
  end.
Proof.
  destruct p as [create|post]; simpl.
  - unfold groq_ask. by destruct (create _).
  - unfold monei_ask. destruct (post _) as [resp|e]; [|done].
    by destruct (_parse_sse resp).
Qed.

Lemma ask_length (p : provider) (user_text : string) (h : list message) :
  length (ask p user_text h).2 ≤ 21.
Proof.
  pose proof (ask_history p user_text h) as H.
  pose proof (push_user_length user_text h) as L.
  destruct (ask p user_text h) as [[reply|e] h']; simpl; subst h'.
  - rewrite length_app. simpl. lia.
  - lia.
Qed.

Lemma ask_all_length (calls : list (provider * string)) (h : list message) :
  length h ≤ 21 → length (ask_all calls h) ≤ 21.
Proof.
  revert h. induction calls as [|[p user_text] calls IH]; intros h Hh; simpl; [done|].
  apply IH, ask_length.
Qed.

Lemma events_data (p : payload) (lines : list sse_line) :
  events (DataLine p :: lines) = p :: events lines.
Proof. reflexivity. Qed.

Lemma events_other (raw : string) (lines : list sse_line) :
  events (Other raw :: lines) = events lines.
Proof. reflexivity. Qed.

Lemma sse_loop_spec (lines : list sse_line) (acc : string) :
  sse_loop acc lines =
  match first_complete lines with
  | Some p => Text.strip (get_data p)
  | None => acc +:+ token_text lines
  end.
Proof.
  unfold first_complete, token_text. revert acc.
  induction lines as [|[raw|p] lines IH]; intros acc.
  - cbn. by rewrite append_nil_r.
  - apply IH.
  - cbn [sse_loop]. rewrite events_data, !filter_cons.
    destruct (decide (event p = Some "complete")) as [Hc|Hc]; [done|].
    destruct (decide (event p = Some "token")) as [Ht|Ht]; rewrite IH.
    + destruct (head _); [done|].
      rewrite fmap_cons. cbn [foldr]. by rewrite append_assoc.
    + done.
Qed.

Lemma parse_sse_spec (lines : list sse_line) :
  _parse_sse lines =
  if decide (produced_text lines = "") then Err EmptyResponse
  else Ok (produced_text lines).
Proof.
  unfold _parse_sse, produced_text. rewrite sse_loop_spec. simpl.
  by destruct (first_complete lines).
Qed.

Lemma first_complete_app (before after : list sse_line) (p : payload) :
  first_complete before = None → event p = Some "complete" →
  first_complete (before ++ DataLine p :: after) = Some p.
Proof.
  unfold first_complete, events. intros Hb Hp.
  rewrite omap_app, filter_app.
  destruct (filter _ (omap _ before)) as [|q l]; [|done].
  change (omap ?f (DataLine p :: after)) with (p :: omap f after).
  by rewrite filter_cons, decide_True.
Qed.

Lemma lstrip_whitespace (s : string) :
  whitespace_only s = true → Text.lstrip s = "".
Proof.
  induction s as [|c s IH]; simpl; [done|].
  intros [Hc Hs]%andb_prop. rewrite Hc. auto.
Qed.

Lemma rstrip_head (c : ascii) (s : string) :
  Text.rstrip (String c s) = "" → Text.isspace c = true.
Proof.
  simpl. destruct (Text.rstrip s); [|done].
  by destruct (Text.isspace c).
Qed.

Lemma strip_empty_iff (s : string) :
  Text.strip s = "" ↔ whitespace_only s = true.
Proof.
  unfold Text.strip. split.
  - induction s as [|c s IH]; [done|]. simpl.
    destruct (Text.isspace c) eqn:Hc; [done|].
    intros H%rstrip_head. congruence.
  - intros H. by rewrite lstrip_whitespace.
Qed.

Example parse_sse_examples :
  _parse_sse [token "Hel"; token "lo"; complete "Hello!"] = Ok "Hello!"
  ∧ _parse_sse [Other ""; token "Hel"; Other ": ping"; token "lo"] = Ok "Hello"
  ∧ _parse_sse [] = Err EmptyResponse.
Proof. repeat split. Qed.

(** C1 (counterexample). Starting from the empty history, the eleventh
    [ask] that returns leaves 21 entries in the history: the cap of 20 is
    applied before the request, and the assistant reply is appended after
    it. *)
Lemma ask_session_reaches_21_entries :
  let p := GroqProvider (fun _ => Ok (Some "hi")) in
  let h10 := ask_all (replicate 10 (p, "hello")) [] in
  length h10 = 20
  ∧ (ask p "hello" h10).1 = Ok "hi"
  ∧ length (ask p "hello" h10).2 = 21
  ∧ ¬ length (ask p "hello" h10).2 ≤ 20.
Proof. vm_compute. repeat split; lia. Qed.

(** C1 (amended). On either provider, [ask] first appends the user turn and
    keeps the most recent 20 entries of the result (the oldest are dropped
    first), so at most 20 entries go to the backend; when it returns, the
    history is those entries followed by the assistant reply, and when it
    raises, those entries alone.  After any non-empty sequence of [ask]
    calls the history has at most 21 entries. *)
Theorem ask_history_window (p : provider) (user_text : string) (h : list message) :
  let kept := push_user user_text h in
  kept = drop (S (length h) - 20) (h ++ [Message "user" user_text])
  ∧ length kept ≤ 20
  ∧ match ask p user_text h with
    | (Ok reply, h') => h' = kept ++ [Message "assistant" reply]
    | (Err _, h') => h' = kept
    end
  ∧ length (ask p user_text h).2 ≤ 21
  ∧ ∀ calls, length (ask_all ((p, user_text) :: calls) h) ≤ 21.
Proof.
  cbn zeta. split_and!.
  - apply push_user_eq.
  - rewrite push_user_length. lia.
  - apply ask_history.
  - apply ask_length.
  - intros calls. cbn [ask_all]. apply ask_all_length, ask_length.
Qed.

(** C2 (counterexample). The payload of the complete event is not returned
    as it is: surrounding white space is removed; and a stream of token
    events whose payloads are all empty does not return their (empty)
    concatenation. *)
Lemma parse_sse_complete_payload_not_verbatim :
  let lines := [token "Hel"; token "lo"; complete " Hello! "] in
  first_complete lines = Some (Payload (Some "complete") (Some " Hello! "))
  ∧ _parse_sse lines = Ok "Hello!"
  ∧ _parse_sse lines ≠ Ok " Hello! "
  ∧ first_complete [token ""] = None
  ∧ _parse_sse [token ""] ≠ Ok (token_text [token ""]).
Proof. vm_compute. repeat split; congruence. Qed.

(** C2 (amended). For every event stream the parser yields the payload of
    the first complete event with surrounding white space removed (whatever
    the tokens before it and the lines after it), and for a stream with no
    complete event the concatenation of all token payloads in order; in
    both cases an empty text is reported as EmptyResponse instead of being
    returned. *)
Theorem parse_sse_first_complete_or_tokens (lines : list sse_line) :
  _parse_sse lines =
  match first_complete lines with
  | Some p =>
      if decide (Text.strip (get_data p) = "") then Err EmptyResponse
      else Ok (Text.strip (get_data p))
  | None =>
      if decide (token_text lines = "") then Err EmptyResponse
      else Ok (token_text lines)
  end.
Proof.
  rewrite parse_sse_spec. unfold produced_text.
  by destruct (first_complete lines).
Qed.

(** C3. A stream that yields no text (in particular the empty stream, and
    any stream without data lines) makes the parser fail with EmptyResponse;
    neither the parser nor the streaming [ask] ever returns the empty
    string. *)
Theorem parse_sse_never_empty (lines : list sse_line) :
  (produced_text lines = "" → _parse_sse lines = Err EmptyResponse)
  ∧ _parse_sse lines ≠ Ok ""
  ∧ _parse_sse [] = Err EmptyResponse
  ∧ (∀ raws, _parse_sse (Other <$> raws) = Err EmptyResponse)
  ∧ (∀ post user_text h, (monei_ask post user_text h).1 ≠ Ok "").
Proof.
  split_and!.
  - intros H. rewrite parse_sse_spec. by rewrite decide_True.
  - rewrite parse_sse_spec. case_decide; congruence.
  - reflexivity.
  - intros raws. rewrite parse_sse_spec, decide_True; [done|].
    unfold produced_text, first_complete, token_text.
    replace (events (Other <$> raws)) with (@nil payload); [done|].
    induction raws as [|r raws IH]; [done|]. by rewrite fmap_cons, events_other.
  - intros post user_text h. unfold monei_ask.
    destruct (post user_text) as [resp|e]; [|done].
    destruct (_parse_sse resp) as [reply|e] eqn:Hr; [|done].
    cbn [fst]. intros [= ->]. revert Hr.
    rewrite parse_sse_spec. case_decide; congruence.
Qed.

Lemma parse_sse_never_empty_witness :
  _parse_sse [Other ""; token ""; Other ": keep-alive"] = Err EmptyResponse.
Proof. apply (proj1 (parse_sse_never_empty _)). reflexivity. Defined.

(** C10. When the first complete event of a stream carries an empty or
    white-space-only payload, the loop leaves the buffer empty whatever the
    tokens before it contributed, and the call fails with EmptyResponse;
    otherwise the reply is that payload with surrounding white space
    removed. *)
Theorem parse_sse_blank_complete (before after : list sse_line) (p : payload) :
  first_complete before = None → event p = Some "complete" →
  (whitespace_only (get_data p) = true →
     (∀ acc, sse_loop acc (before ++ DataLine p :: after) = "")
     ∧ _parse_sse (before ++ DataLine p :: after) = Err EmptyResponse)
  ∧ (whitespace_only (get_data p) = false →
     _parse_sse (before ++ DataLine p :: after) = Ok (Text.strip (get_data p))).
Proof.
  intros Hb Hp.
  pose proof (first_complete_app before after p Hb Hp) as Hfc.
  split; intros Hw.
  - apply strip_empty_iff in Hw. split.
    + intros acc. by rewrite sse_loop_spec, Hfc.
    + rewrite parse_sse_spec. unfold produced_text. rewrite Hfc.
      by rewrite decide_True.
  - rewrite parse_sse_spec. unfold produced_text. rewrite Hfc.
    rewrite decide_False; [done|].
    intros H%strip_empty_iff. congruence.
Qed.

Lemma parse_sse_blank_complete_witness :
  _parse_sse [token "Hel"; token "lo"; complete "   "; token "x"] = Err EmptyResponse.
Proof.
  apply (parse_sse_blank_complete [token "Hel"; token "lo"] [token "x"]
           (Payload (Some "complete") (Some "   "))); reflexivity.
Defined.

End LlmFacts.

(** ** The speech-synthesis adapter *)

Section CharFacts.

Local Ltac by_cases c := destruct c as [[] [] [] [] [] [] [] []]; vm_compute; congruence.

Lemma lower_char_idem (c : ascii) : Text.lower_char (Text.lower_char c) = Text.lower_char c.
Proof. by_cases c. Qed.

Lemma lower_upper_char (c : ascii) : Text.lower_char (Text.upper_char c) = Text.lower_char c.
Proof. by_cases c. Qed.

Lemma upper_lower_char (c : ascii) : Text.upper_char (Text.lower_char c) = Text.upper_char c.
Proof. by_cases c. Qed.

Lemma upper_char_isupper (c : ascii) : Text.isupper c = true → Text.upper_char c = c.
Proof. by_cases c. Qed.

Lemma lower_char_islower (c : ascii) : Text.islower c = true → Text.lower_char c = c.
Proof. by_cases c. Qed.

Lemma islower_lower_char (c : ascii) :
  Text.islower (Text.lower_char c) = true → Text.isalpha c = true.
Proof. by_cases c. Qed.

Lemma isupper_islower_lower (c : ascii) :
  Text.isupper c = true → Text.islower (Text.lower_char c) = true.
Proof. by_cases c. Qed.

End CharFacts.

Section TtsFacts.
Import Collector Tts TtsSpec.

Lemma lower_title_from (prev : bool) (s : string) :
  Text.lower (Text.title_from prev s) = Text.lower s.
Proof.
  revert prev. induction s as [|c s IH]; intros prev; simpl; [done|].
  rewrite IH. by destruct prev; rewrite ?lower_char_idem, ?lower_upper_char.
Qed.

Lemma title_from_all_lower (s r : string) :
  all_lower r = true → Text.lower s = r → Text.title_from true s = r.
Proof.
  revert r. induction s as [|c s IH]; intros [|d r]; simpl; try done.
  intros [Hd Hr]%andb_prop [= Hc Hs].
  rewrite Hc. f_equal. rewrite (islower_lower_char c) by congruence. auto.
Qed.

Lemma title_capitalized (s name : string) :
  capitalized name = true → Text.lower s = Text.lower name → Text.title s = name.
Proof.
  destruct name as [|d r]; [done|]. destruct s as [|c s]; [done|].
  unfold Text.title. simpl. intros [Hd Hr]%andb_prop [= Hc Hs].
  assert (Text.upper_char c = d) as ->.
  { by rewrite <-upper_lower_char, Hc, upper_lower_char, upper_char_isupper. }
  f_equal.
  rewrite (islower_lower_char c) by (rewrite Hc; by apply isupper_islower_lower).
  apply title_from_all_lower; [done|].
  rewrite Hs. clear -Hr. induction r as [|x r IH]; simpl in *; [done|].
  apply andb_prop in Hr as [Hx Hr]. by rewrite lower_char_islower, IH.
Qed.

Lemma voices_capitalized : Forall (fun name => capitalized name = true) list_voice_names.
Proof. repeat constructor. Qed.

Lemma voice_match (voice : string) :
  let v := Text.title (Text.strip voice) in
  (v ∈ list_voice_names ↔
     ∃ name, name ∈ list_voice_names
             ∧ Text.lower (Text.strip voice) = Text.lower name)
  ∧ (∀ name, name ∈ list_voice_names →
             Text.lower (Text.strip voice) = Text.lower name → v = name).
Proof.
  cbn zeta.
  assert (∀ name, name ∈ list_voice_names →
            Text.lower (Text.strip voice) = Text.lower name →
            Text.title (Text.strip voice) = name) as Hres.
  { intros name Hin Heq. apply title_capitalized; [|done].
    by eapply (proj1 (Forall_forall _ _) voices_capitalized). }
  split; [split|done].
  - intros Hin. eexists; split; [exact Hin|].
    unfold Text.title. by rewrite lower_title_from.
  - intros (name & Hin & Heq). by rewrite (Hres name).
Qed.

Section Synthesize.
Variables (w : world) (text output_path voice response_format : string).
Variable api_key : option string.

Let run := synthesize_speech w text output_path voice response_format api_key.
Let v := Text.title (Text.strip voice).

Lemma synthesize_too_long :
  2000 < String.length text → run = (Err (TextTooLong (String.length text)), w).
Proof.
  intros H. unfold run, synthesize_speech.
  by rewrite (proj2 (Nat.ltb_lt _ _) H).
Qed.

Lemma synthesize_not_too_long (n : nat) :
  String.length text ≤ 2000 → run.1 ≠ Err (TextTooLong n).
Proof.
  intros H. unfold run, synthesize_speech.
  rewrite (proj2 (Nat.ltb_ge _ _) H). unfold _get_api_key.
  repeat case_match; simpl; congruence.
Qed.

Lemma synthesize_unknown_voice :
  String.length text ≤ 2000 → v ∉ list_voice_names →
  run = (Err (UnknownVoice v (Text.join ", " list_voice_names)), w).
Proof.
  intros H Hv. unfold run, synthesize_speech.
  rewrite (proj2 (Nat.ltb_ge _ _) H). fold v.
  by rewrite bool_decide_eq_false_2.
Qed.

Lemma synthesize_known_voice (v' available : string) :
  v ∈ list_voice_names → run.1 ≠ Err (UnknownVoice v' available).
Proof.
  intros Hv. unfold run, synthesize_speech. fold v.
  rewrite (bool_decide_eq_true_2 _ Hv). unfold _get_api_key. cbn [negb].
  repeat case_match; simpl; congruence.
Qed.

Lemma synthesize_sent (q : request) :
  q ∈ sent run.2 → q ∈ sent w ∨ (req_text q = text ∧ req_voice q = v).
Proof.
  unfold run, synthesize_speech. fold v.
  repeat case_match; simpl; auto;
    (intros [?| ->%list_elem_of_singleton]%elem_of_app; [by left | by right]).
Qed.

End Synthesize.

Example synthesize_accepts_2000 :
  (synthesize_speech fresh_world (chars 2000 "a") "out/reply.mp3" "idera" "mp3" None).1
  = Ok "out/reply.mp3".
Proof. vm_compute. reflexivity. Qed.

Example synthesize_resolves_idera :
  Text.title (Text.strip "idera") = "Idera" ∧ Text.title (Text.strip "IDERA") = "Idera".
Proof. split; reflexivity. Qed.

(** C4. [synthesize_speech] fails with TextTooLong exactly when the text
    has more than 2000 characters; it then leaves everything as it was, and
    a request that is sent carries the text as given. *)
Theorem synthesize_text_too_long (w : world)
    (text output_path voice response_format : string) (api_key : option string) :
  let run := synthesize_speech w text output_path voice response_format api_key in
  ((∃ n, run.1 = Err (TextTooLong n)) ↔ 2000 < String.length text)
  ∧ (2000 < String.length text →
       run = (Err (TextTooLong (String.length text)), w))
  ∧ (∀ q, q ∈ sent run.2 → q ∈ sent w ∨ req_text q = text).
Proof.
  cbn zeta. split_and!.
  - split.
    + intros [n Hn]. destruct (Nat.lt_ge_cases 2000 (String.length text)) as [|Hle]; [done|].
      by apply synthesize_not_too_long in Hn.
    + intros H. eexists. by rewrite synthesize_too_long.
  - apply synthesize_too_long.
  - intros q Hq. apply synthesize_sent in Hq. tauto.
Qed.

Lemma synthesize_text_too_long_witness :
  synthesize_speech fresh_world (chars 2001 "a") "out/reply.mp3" "Idera" "mp3" None
  = (Err (TextTooLong 2001), fresh_world).
Proof.
  apply (proj1 (proj2 (synthesize_text_too_long fresh_world (chars 2001 "a")
                         "out/reply.mp3" "Idera" "mp3" None))).
  vm_compute. lia.
Defined.

(** C5. [synthesize_speech] strips and title-cases the voice name; the
    result is in the voice table exactly when the stripped name equals a
    table entry up to letter case, and is then that entry.  For a text
    within the length limit, a name that resolves to no entry fails with
    UnknownVoice carrying the list of valid names, a name that resolves
    never does, and a request that is sent carries the canonical name. *)
Theorem synthesize_voice_resolution (w : world)
    (text output_path voice response_format : string) (api_key : option string) :
  String.length text ≤ 2000 →
  let run := synthesize_speech w text output_path voice response_format api_key in
  let v := Text.title (Text.strip voice) in
  (v ∈ list_voice_names ↔
     ∃ name, name ∈ list_voice_names
             ∧ Text.lower (Text.strip voice) = Text.lower name)
  ∧ (∀ name, name ∈ list_voice_names →
             Text.lower (Text.strip voice) = Text.lower name → v = name)
  ∧ (v ∉ list_voice_names → run = (Err (UnknownVoice v AVAILABLE), w))
  ∧ (v ∈ list_voice_names → ∀ v' available, run.1 ≠ Err (UnknownVoice v' available))
  ∧ (∀ q, q ∈ sent run.2 → q ∈ sent w ∨ req_voice q = v).
Proof.
  intros Hlen. cbn zeta. split_and!.
  - apply voice_match.
  - apply voice_match.
  - intros Hv. by rewrite synthesize_unknown_voice.
  - intros Hv v' available. by apply synthesize_known_voice.
  - intros q Hq. apply synthesize_sent in Hq. tauto.
Qed.

Lemma synthesize_voice_resolution_witness :
  synthesize_speech fresh_world "Good morning" "out/reply.mp3" " nobody " "mp3" None
  = (Err (UnknownVoice "Nobody" AVAILABLE), fresh_world).
Proof.
  apply (synthesize_voice_resolution fresh_world "Good morning" "out/reply.mp3"
           " nobody " "mp3" None).
  - vm_compute. lia.
  - intros H%(bool_decide_eq_true_2 _). vm_compute in H. discriminate.
Defined.

End TtsFacts.


(** ** The collector *)

Section CollectorFacts.
Import Collector CollectorSpec.

Example parts_example : parts "/tmp//music/./Song.MP3" = ["tmp"; "music"; "Song.MP3"].
Proof. reflexivity. Qed.

Example Path_str_examples :
  Path_str (Path_of "//tmp/x") = "//tmp/x"
  ∧ Path_str (Path_of "///tmp/x") = "/tmp/x"
  ∧ Path_str (Path_of "a//b/./c/") = "a/b/c"
  ∧ Path_str (Path_of "") = "."
  ∧ Path_str (Path_join (Path_of "//tmp") "n.wav") = "//tmp/n.wav"
  ∧ Path_str (Path_parent (Path_of "/x")) = "/".
Proof. by split_and!. Qed.

Example repr_examples :
  Text.repr "blocked/extracted_audio" = "'blocked/extracted_audio'"
  ∧ Text.repr "it's" = String "034" ("it's" +:+ String "034" "")
  ∧ Text.repr (String "009" "a\b") = "'\ta\\b'".
Proof. by split_and!. Qed.

Example suffix_examples :
  Path_suffix "music/Song.MP3" = ".MP3" ∧ Path_suffix "music/.mp3" = ""
  ∧ Path_suffix "a.b/c" = "" ∧ Path_suffix "archive.tar.gz" = ".gz".
Proof. repeat split. Qed.

Example collect_example :
  (collect_local_file music_fs "music/Song.MP3" "out/collected").1 = Ok "out/collected/Song.MP3".
Proof. vm_compute. reflexivity. Qed.

Lemma stat_nonempty (m : fs) (p : path) : p ≠ [] → stat m p = m !! p.
Proof. by destruct p. Qed.

Lemma stat_snoc (m : fs) (above : path) (c : string) :
  stat m (above ++ [c]) = m !! (above ++ [c]).
Proof. apply stat_nonempty. by destruct above. Qed.

(** What a successful [mkdir_parents] changes: it turns absent prefixes of
    the requested directory into directories and nothing else. *)
Lemma mkdir_parents_ok (todo : list string) (m m1 : fs) (above : path) :
  mkdir_parents m above todo = Ok m1 →
  (∀ p, m1 !! p = m !! p
        ∨ (m !! p = None ∧ m1 !! p = Some Dir
           ∧ ∃ k, 0 < k ≤ length todo ∧ p = above ++ take k todo))
  ∧ (todo ≠ [] → m1 !! (above ++ todo) = Some Dir).
Proof.
  revert m above. induction todo as [|c rest IH]; intros m above; cbn [mkdir_parents].
  - intros [= ->]. split; [by left | done].
  - rewrite stat_snoc.
    destruct (m !! (above ++ [c])) as [[content|]|] eqn:Hq.
    + by destruct rest.
    + intros [Hp Hlast]%IH. split.
      * intros p. destruct (Hp p) as [?|(? & ? & k & ? & ->)]; [by left|right].
        split_and!; [done..|]. exists (S k). simpl. rewrite <-app_assoc. split; [lia|done].
      * intros _. destruct rest as [|c' rest'].
        -- destruct (Hp (above ++ [c])) as [->|(Hnone & _)]; [done | congruence].
        -- rewrite <-app_assoc in Hlast. by apply Hlast.
    + intros [Hp Hlast]%IH. split.
      * intros p. destruct (decide (p = above ++ [c])) as [->|Hne].
        -- right. destruct (Hp (above ++ [c])) as [Heq|(Hnone & _)].
           ++ rewrite lookup_insert_eq in Heq. split_and!; [done..|].
              exists 1. simpl. split; [lia|]. by rewrite take_0.
           ++ by rewrite lookup_insert_eq in Hnone.
        -- destruct (Hp p) as [Heq|(Hnone & Hdir & k & ? & ->)].
           ++ left. by rewrite Heq, lookup_insert_ne.
           ++ right. rewrite lookup_insert_ne in Hnone by done.
              split_and!; [done..|]. exists (S k). simpl. rewrite <-app_assoc. split; [lia|done].
      * intros _. destruct rest as [|c' rest'].
        -- destruct (Hp (above ++ [c])) as [Heq|(Hnone & _)].
           ++ by rewrite Heq, lookup_insert_eq.
           ++ by rewrite lookup_insert_eq in Hnone.
        -- rewrite <-app_assoc in Hlast. by apply Hlast.
Qed.

Lemma split_no_char (ch : ascii) (x : string) :
  no_char ch x = true → Text.split ch x = [x].
Proof.
  induction x as [|c x IH]; simpl; [done|].
  intros [Hc Hx]%andb_prop. apply negb_true_iff in Hc. by rewrite Hc, IH.
Qed.

Lemma split_app_sep (ch : ascii) (x rest : string) :
  no_char ch x = true →
  Text.split ch (x +:+ String ch rest) = x :: Text.split ch rest.
Proof.
  induction x as [|c x IH]; intros Hx.
  - change (Text.split ch (String ch rest) = "" :: Text.split ch rest).
    simpl. by rewrite Ascii.eqb_refl.
  - rewrite append_cons. simpl in *.
    apply andb_prop in Hx as [Hc Hx]. apply negb_true_iff in Hc.
    by rewrite Hc, IH.
Qed.

Lemma split_parts_no_char (ch : ascii) (s : string) :
  Forall (fun x => no_char ch x = true) (Text.split ch s).
Proof.
  induction s as [|c s IH]; simpl; [by repeat constructor|].
  destruct (Ascii.eqb c ch) eqn:Hc; [by constructor|].
  destruct IH as [|x xs Hx Hxs]; constructor; try done.
  - simpl. by rewrite Hc.
  - simpl. by rewrite Hc, Hx.
Qed.

Lemma parts_clean (s : string) : Forall (fun c => clean c = true) (parts s).
Proof.
  unfold parts. pose proof (split_parts_no_char "/" s) as H.
  induction H as [|x xs Hx Hxs IH]; simpl; [constructor|].
  destruct (is_part x) eqn:Hp; [|done].
  constructor; [|done]. unfold clean. by rewrite Hp, Hx.
Qed.

Lemma parts_join (ps : list string) :
  Forall (fun c => clean c = true) ps → parts (Text.join "/" ps) = ps.
Proof.
  unfold parts. induction 1 as [|x xs Hx Hxs IH]; [done|].
  apply andb_prop in Hx as [Hp Hn].
  destruct xs as [|y ys].
  - simpl. rewrite split_no_char by done. simpl. by rewrite Hp.
  - change (Text.join "/" (x :: y :: ys)) with (x +:+ String "/" (Text.join "/" (y :: ys))).
    rewrite split_app_sep by done. cbn [List.filter]. by rewrite Hp, IH.
Qed.

Lemma parts_Path_str (p : Path) :
  Forall (fun c => clean c = true) (comps p) → parts (Path_str p) = comps p.
Proof.
  intros H. unfold Path_str. destruct (anchor p).
  - destruct (comps p) as [|c l] eqn:Hc; [done|]. by apply parts_join.
  - rewrite <-(parts_join (comps p)) at 2 by done.
    unfold parts. change (root_str Slash +:+ ?s) with (String "/" s). done.
  - rewrite <-(parts_join (comps p)) at 2 by done.
    unfold parts. change (root_str TwoSlashes +:+ ?s) with (String "/" (String "/" s)). done.
Qed.

Lemma Path_name_clean (s : string) : parts s ≠ [] → clean (Path_name s) = true.
Proof.
  intros Hne. unfold Path_name.
  pose proof (parts_clean s) as H. rewrite Forall_forall in H. apply H.
  destruct (parts s) as [|c l] using rev_ind; [done|].
  rewrite last_last. set_solver.
Qed.

Lemma mkdir_parents_beyond (todo : list string) (m m1 : fs) (p : path) :
  mkdir_parents m [] todo = Ok m1 → length todo < length p → m1 !! p = m !! p.
Proof.
  intros [Hp _]%mkdir_parents_ok Hlen.
  destruct (Hp p) as [?|(_ & _ & k & _ & ->)]; [done|].
  simpl in Hlen. rewrite length_take in Hlen. lia.
Qed.

Lemma mkdir_parents_keeps (todo : list string) (m m1 : fs) (p : path) (n : node) :
  mkdir_parents m [] todo = Ok m1 → m !! p = Some n → m1 !! p = Some n.
Proof.
  intros [Hp _]%mkdir_parents_ok Hn.
  destruct (Hp p) as [?|(? & _)]; congruence.
Qed.

Lemma mkdir_parents_dir (todo : list string) (m m1 : fs) :
  mkdir_parents m [] todo = Ok m1 → stat m1 todo = Some Dir.
Proof.
  intros [_ Hlast]%mkdir_parents_ok. destruct todo as [|c l]; [done|].
  by apply Hlast.
Qed.

Lemma supported_iff (filepath : string) :
  is_audio filepath || is_video filepath = true
  ↔ Text.lower (Path_suffix filepath) ∈ AUDIO_EXTENSIONS ∪ VIDEO_EXTENSIONS.
Proof.
  unfold is_audio, is_video.
  rewrite orb_true_iff, !bool_decide_eq_true, elem_of_union. done.
Qed.

Lemma copy2_fresh (m : fs) (src dst : path) (content : list Byte.byte) :
  stat m src = Some (File content) → src ≠ dst → stat m dst ≠ Some Dir →
  stat m (removelast dst) = Some Dir →
  copy2 m src dst = Ok (<[dst := File content]> m).
Proof.
  intros Hsrc Hne Hdst Hparent. unfold copy2.
  assert (match stat m dst with Some Dir => dst ++ [List.last src ""] | _ => dst end = dst)
    as -> by (by destruct (stat m dst) as [[]|]).
  rewrite Hsrc, decide_False, Hparent by done.
  by destruct (stat m dst) as [[]|].
Qed.

(** C6 (counterexample). A file that already lies in the target directory
    exists and has a supported extension, yet collecting it fails: the copy
    would be onto itself.  Likewise when the target directory cannot be
    created because a file has its name. *)
Lemma collect_local_file_can_fail :
  exists_ collected_fs "out/a.wav" = true
  ∧ stat collected_fs (parts "out/a.wav") = Some (File hello)
  ∧ is_audio "out/a.wav" = true
  ∧ collect_local_file collected_fs "out/a.wav" "out"
    = (Err (OSError (SameFileError ["out"; "a.wav"])), collected_fs)
  ∧ stat music_fs (parts "music/Song.MP3") = Some (File hello)
  ∧ is_audio "music/Song.MP3" = true
  ∧ collect_local_file music_fs "music/Song.MP3" "music/notes.txt"
    = (Err (OSError (EEXIST ["music"; "notes.txt"])), music_fs).
Proof. repeat split; vm_compute; reflexivity. Qed.

(** C6 (amended). [collect_local_file] fails with FileNotFound when the
    source path does not exist, and with UnsupportedFormat when it exists but
    its extension, in lower case, is in neither allow-list.  For an existing
    regular file with a supported extension, if the target directory exists or
    can be created and the destination (target directory / file name) is not
    the source itself and not a directory, the call succeeds, returns the
    destination path, which keeps the file name, and leaves there a file with
    the bytes of the source, the source staying as it was. *)
Theorem collect_local_file_spec (m : fs) (filepath output_dir : string) :
  let src := parts filepath in
  let dest := parts output_dir ++ [Path_name filepath] in
  let run := collect_local_file m filepath output_dir in
  (exists_ m filepath = false → run = (Err (FileNotFound filepath), m))
  ∧ (exists_ m filepath = true →
     Text.lower (Path_suffix filepath) ∉ AUDIO_EXTENSIONS ∪ VIDEO_EXTENSIONS →
     run = (Err (UnsupportedFormat (Path_suffix filepath)), m))
  ∧ (∀ content,
       exists_ m filepath = true →
       stat m src = Some (File content) →
       Text.lower (Path_suffix filepath) ∈ AUDIO_EXTENSIONS ∪ VIDEO_EXTENSIONS →
       is_ok (mkdir_parents m [] (parts output_dir)) = true →
       dest ≠ src → stat m dest ≠ Some Dir →
       ∃ returned m2,
         run = (Ok returned, m2)
         ∧ parts returned = dest
         ∧ Path_name returned = Path_name filepath
         ∧ stat m2 dest = Some (File content)
         ∧ stat m2 src = Some (File content)).
Proof.
  cbn zeta. unfold collect_local_file. split_and!.
  - by intros ->.
  - intros -> Hsup. cbn [negb].
    rewrite <-supported_iff in Hsup. apply not_true_is_false in Hsup. by rewrite Hsup.
  - intros content -> Hsrc Hsup Hmk Hne Hdst. cbn [negb].
    destruct (mkdir_parents m [] (parts output_dir)) as [m1|e] eqn:Hmk1; [clear Hmk|done].
    rename Hmk1 into Hmk.
    assert (parts filepath ≠ []) as Hparts by (intros E; by rewrite E in Hsrc).
    pose proof (Path_name_clean filepath Hparts) as Hname.
    assert (is_part (Path_name filepath) = true) as Hpart
      by (by apply andb_prop in Hname as [? _]).
    apply supported_iff in Hsup. rewrite Hsup. cbn [negb].
    unfold ensure_dir. rewrite Hmk.
    unfold Path_join, Path_of. cbn [comps anchor List.filter]. rewrite Hpart.
    set (dest := parts output_dir ++ [Path_name filepath]) in *.
    assert (dest ≠ []) as Hdne by (by destruct (parts output_dir)).
    rewrite stat_nonempty in Hsrc, Hdst by done.
    assert (m1 !! dest = m !! dest) as Hd1.
    { eapply mkdir_parents_beyond; [done|]. unfold dest. rewrite length_app. simpl. lia. }
    rewrite (copy2_fresh m1 _ _ content).
    + eexists _, _. split; [reflexivity|]. split_and!.
      * rewrite parts_Path_str; [done|]. cbn [comps].
        apply Forall_app. split; [apply parts_clean | by repeat constructor].
      * unfold Path_name at 1. rewrite parts_Path_str.
        -- cbn [comps]. fold dest. unfold dest. by rewrite last_last.
        -- cbn [comps]. apply Forall_app. split; [apply parts_clean | by repeat constructor].
      * rewrite stat_nonempty by done. by rewrite lookup_insert_eq.
      * rewrite stat_nonempty by done. rewrite lookup_insert_ne by done.
        by eapply mkdir_parents_keeps.
    + rewrite stat_nonempty by done. by eapply mkdir_parents_keeps.
    + done.
    + rewrite stat_nonempty by done. by rewrite Hd1.
    + unfold dest. rewrite removelast_last. by eapply mkdir_parents_dir.
Qed.

Lemma collect_local_file_spec_witness :
  ∃ returned m2,
    collect_local_file music_fs "music/Song.MP3" "out/collected" = (Ok returned, m2)
    ∧ parts returned = ["out"; "collected"; "Song.MP3"]
    ∧ Path_name returned = "Song.MP3"
    ∧ stat m2 ["out"; "collected"; "Song.MP3"] = Some (File hello)
    ∧ stat m2 ["music"; "Song.MP3"] = Some (File hello).
Proof.
  apply (proj2 (proj2 (collect_local_file_spec music_fs "music/Song.MP3" "out/collected"))
           hello).
  - vm_compute. reflexivity.
  - vm_compute. reflexivity.
  - apply supported_iff. vm_compute. reflexivity.
  - vm_compute. reflexivity.
  - vm_compute. congruence.
  - vm_compute. congruence.
Defined.

End CollectorFacts.

(** ** The processor *)

Section ProcessorFacts.
Import Collector Processor ProcessorSpec.

Example ensure_wav_examples :
  (_ensure_wav demo_tools demo_world "clips/valid.WAV").1 = Ok "clips/valid.WAV"
  ∧ (_ensure_wav demo_tools demo_world "clips/talk.mp3").1 = Ok "clips/talk.mp3"
  ∧ Text.rsplit_dot_head "clips/talk.mp3" +:+ "_converted.wav" = "clips/talk_converted.wav"
  ∧ Text.rsplit_dot_head "clips.v1/talk" +:+ "_converted.wav" = "clips_converted.wav".
Proof. repeat split; vm_compute; reflexivity. Qed.

Example process_batch_valid_and_missing :
  (process_batch demo_tools demo_world ["clips/valid.wav"; "clips/missing.wav"]
     "output" "base" None).1
  = [ Transcribed (Transcription "clips/valid.wav" "hello world" "en"
                     [Segment 0 2 "hello world"]);
      Failed "clips/missing.wav" "Audio file not found: clips/missing.wav" ].
Proof. vm_compute. reflexivity. Qed.

Section Batch.
Context {Wave Stamp : Type}.
Variable t : @tools Wave Stamp.
Variables (output_dir model_size : string) (language : option string).

Let loop w results i total todo :=
  process_batch_loop t w results i total todo output_dir model_size language.

Lemma batch_loop_acc (todo : list string) (w : world) (acc : list batch_item)
    (i total : nat) :
  loop w acc i total todo
  = (acc ++ (loop w [] i total todo).1, (loop w [] i total todo).2).
Proof.
  unfold loop. revert w acc i.
  induction todo as [|fp rest IH]; intros w acc i; cbn [process_batch_loop].
  - by rewrite app_nil_r.
  - destruct (process_file _ _ _ _ _ _) as [[result|e] w1].
    + rewrite (IH _ (acc ++ _)), (IH _ ([] ++ _)). cbn [fst snd].
      by rewrite <-!app_assoc.
    + rewrite (IH _ (acc ++ _)), (IH _ ([] ++ _)). cbn [fst snd].
      by rewrite <-!app_assoc.
Qed.

Lemma batch_loop_cons (fp : string) (rest : list string) (w : world) (i total : nat) :
  let step := process_file t (print (batch_header i total fp) w) fp
                output_dir model_size language in
  let w1 := match step.1 with
            | Ok _ => step.2
            | Err e => print ("  [Error] Failed to process " +:+ fp +:+ ": " +:+ str e) step.2
            end in
  loop w [] i total (fp :: rest)
  = (item_of fp step.1 :: (loop w1 [] (S i) total rest).1,
     (loop w1 [] (S i) total rest).2).
Proof.
  cbn zeta. unfold loop at 1. cbn [process_batch_loop].
  destruct (process_file _ _ _ _ _ _) as [[result|e] w1]; cbn [fst snd item_of].
  - exact (batch_loop_acc rest w1 [Transcribed result] (S i) total).
  - exact (batch_loop_acc rest _ [Failed fp (str e)] (S i) total).
Qed.

Lemma batch_loop_length (todo : list string) (w : world) (i total : nat) :
  length (loop w [] i total todo).1 = length todo.
Proof.
  revert w i. induction todo as [|fp rest IH]; intros w i; [done|].
  rewrite batch_loop_cons. cbn [fst length]. by rewrite IH.
Qed.

Lemma batch_loop_lookup (todo : list string) (w : world) (i total k : nat) (fp : string) :
  todo !! k = Some fp →
  (loop w [] i total todo).1 !! k
  = Some (item_of fp
            (process_file t
               (print (batch_header (i + k) total fp) (loop w [] i total (take k todo)).2)
               fp output_dir model_size language).1).
Proof.
  revert w i k. induction todo as [|fp0 rest IH]; intros w i k; [done|].
  destruct k as [|k]; rewrite batch_loop_cons; cbn [fst].
  - intros [= ->]. by rewrite Nat.add_0_r.
  - intros Hk. cbn [take]. rewrite batch_loop_cons. cbn [snd].
    rewrite lookup_cons. rewrite (IH _ _ _ Hk). by rewrite Nat.add_succ_r.
Qed.

End Batch.

Lemma process_file_missing {Wave Stamp : Type} (t : @tools Wave Stamp) (w : world)
    (filepath output_dir model_size : string) (language : option string) :
  exists_ (files w) filepath = false →
  ∃ e, (process_file t w filepath output_dir model_size language).1 = Err e.
Proof.
  intros Hex. unfold process_file, extract_audio_from_video, transcribe_audio.
  rewrite Hex. cbn [negb].
  destruct (is_video filepath); [|destruct (is_audio filepath)].
  - destruct (moviepy t); eauto.
  - destruct (whisper t); eauto.
  - eauto.
Qed.

(** C7. [process_batch] returns a list (it has no way to raise) with one
    element per input path, in order: the element for a path is the
    transcription when processing it succeeded and the record
    [{audio_path, error}] with that path and the message when it failed, the
    later paths being processed all the same.  A path that does not exist
    when its turn comes yields such a record. *)
Theorem process_batch_one_result_per_input {Wave Stamp : Type} (t : @tools Wave Stamp)
    (w : world) (filepaths : list string) (output_dir model_size : string)
    (language : option string) :
  let run := process_batch t w filepaths output_dir model_size language in
  let total := length filepaths in
  length run.1 = total
  ∧ ∀ k fp, filepaths !! k = Some fp →
      let w_k := (process_batch_loop t w [] 1 total (take k filepaths)
                    output_dir model_size language).2 in
      let outcome := (process_file t (print (batch_header (S k) total fp) w_k) fp
                        output_dir model_size language).1 in
      match outcome with
      | Ok result => run.1 !! k = Some (Transcribed result)
      | Err e => run.1 !! k = Some (Failed fp (str e))
      end
      ∧ (exists_ (files w_k) fp = false → ∃ error, run.1 !! k = Some (Failed fp error)).
Proof.
  cbn zeta. unfold process_batch. split.
  - apply batch_loop_length.
  - intros k fp Hk.
    pose proof (batch_loop_lookup t output_dir model_size language
                  filepaths w 1 (length filepaths) k fp Hk) as Hlook.
    cbn [Nat.add] in Hlook. rewrite Hlook. split.
    + by destruct (process_file _ _ _ _ _ _).1.
    + intros Hex.
      destruct (process_file_missing t
                  (print (batch_header (S k) (length filepaths) fp)
                     (process_batch_loop t w [] 1 (length filepaths) (take k filepaths)
                        output_dir model_size language).2)
                  fp output_dir model_size language Hex) as [e He].
      rewrite He. by eexists.
Qed.

Lemma process_batch_one_result_per_input_witness :
  ∃ error,
    (process_batch demo_tools demo_world ["clips/valid.wav"; "clips/missing.wav"]
       "output" "base" None).1 !! 1
    = Some (Failed "clips/missing.wav" error).
Proof.
  apply (proj2 (process_batch_one_result_per_input demo_tools demo_world
                  ["clips/valid.wav"; "clips/missing.wav"] "output" "base" None)
           1 "clips/missing.wav").
  - reflexivity.
  - vm_compute. reflexivity.
Defined.




End ProcessorFacts.

(** * Further properties of the code *)

(** ** The collector, continued *)

Section CollectorMore.
Import Collector CollectorSpec.

Lemma mkdir_parents_prefixes (todo : list string) (m m1 : fs) (above : path) :
  mkdir_parents m above todo = Ok m1 →
  ∀ k, 0 < k ≤ length todo → m1 !! (above ++ take k todo) = Some Dir.
Proof.
  intros Hmk k Hk. pose proof (mkdir_parents_ok todo m m1 above Hmk) as [_ Hlast].
  revert m above Hmk Hlast k Hk.
  induction todo as [|c rest IH]; intros m above Hmk Hlast k Hk; [simpl in Hk; lia|].
  destruct k as [|k]; [lia|]. cbn [take].
  cbn [mkdir_parents] in Hmk. rewrite stat_snoc in Hmk.
  assert (∃ m0, mkdir_parents m0 (above ++ [c]) rest = Ok m1
                ∧ m0 !! (above ++ [c]) = Some Dir) as (m0 & Hm0 & Hq).
  { destruct (m !! (above ++ [c])) as [[content|]|] eqn:Hq.
    - by destruct rest.
    - by exists m.
    - exists (<[above ++ [c] := Dir]> m). by rewrite lookup_insert_eq. }
  destruct k as [|k].
  - rewrite take_0. destruct (proj1 (mkdir_parents_ok _ _ _ _ Hm0) (above ++ [c]))
      as [->|(? & _)]; congruence.
  - replace (above ++ c :: take (S k) rest) with ((above ++ [c]) ++ take (S k) rest)
      by (by rewrite <-app_assoc).
    apply (IH m0); [done| |simpl in Hk; lia].
    intros Hne. rewrite <-app_assoc. by apply Hlast.
Qed.

Lemma mkdir_parents_again (todo : list string) (m : fs) (above : path) :
  (∀ k, 0 < k ≤ length todo → m !! (above ++ take k todo) = Some Dir) →
  mkdir_parents m above todo = Ok m.
Proof.
  revert above. induction todo as [|c rest IH]; intros above H; [done|].
  cbn [mkdir_parents]. rewrite stat_snoc.
  pose proof (H 1 ltac:(simpl; lia)) as H1. cbn [take] in H1. rewrite take_0 in H1.
  rewrite H1. apply IH. intros k Hk.
  rewrite <-app_assoc. apply (H (S k)). simpl. lia.
Qed.

Lemma mkdir_parents_err (todo : list string) (m : fs) (above : path) (e : os_error) :
  mkdir_parents m above todo = Err e →
  ∃ k content, 0 < k ≤ length todo ∧ m !! (above ++ take k todo) = Some (File content).
Proof.
  revert m above. induction todo as [|c rest IH]; intros m above; [done|].
  cbn [mkdir_parents]. rewrite stat_snoc.
  destruct (m !! (above ++ [c])) as [[content|]|] eqn:Hq.
  - intros _. exists 1, content. simpl. rewrite take_0. split; [lia|done].
  - intros (k & content & Hk & Hf)%IH. exists (S k), content.
    simpl. rewrite <-app_assoc in Hf. split; [lia|done].
  - intros (k & content & Hk & Hf)%IH. exists (S k), content.
    simpl. rewrite <-app_assoc in Hf. split; [lia|].
    rewrite lookup_insert_ne in Hf; [done|].
    intros E. apply (f_equal length) in E. rewrite !length_app, length_take in E.
    simpl in E. lia.
Qed.

Lemma ensure_dir_ok_facts (m m' : fs) (s : string) (p : Path) :
  ensure_dir m s = Ok (p, m') →
  p = Path_of s
  ∧ stat m' (parts s) = Some Dir
  ∧ (∀ q n, stat m q = Some n → stat m' q = Some n)
  ∧ (∀ m2, (∀ q n, m' !! q = Some n → m2 !! q = Some n) → ensure_dir m2 s = Ok (p, m2)).
Proof.
  unfold ensure_dir.
  destruct (mkdir_parents m [] (parts s)) as [m1|e] eqn:Hmk; [|done].
  intros [= <- <-]. split_and!.
  - done.
  - by eapply mkdir_parents_dir.
  - intros [|c q] n; [done|]. cbn [stat]. by eapply mkdir_parents_keeps.
  - intros m2 Hkeep. rewrite mkdir_parents_again; [done|].
    intros k Hk. apply Hkeep. by eapply mkdir_parents_prefixes.
Qed.

(** X1. [ensure_dir] succeeds exactly when no part of the way to the
    directory is taken by a regular file.  When it succeeds the directory
    exists, nothing that existed has changed, whatever is new is a directory
    on the way to it, and a second call changes nothing. *)
Theorem ensure_dir_creates (m : fs) (s : string) :
  (is_ok (ensure_dir m s) = true ↔
     ∀ k content, 0 < k ≤ length (parts s) → m !! take k (parts s) ≠ Some (File content))
  ∧ match ensure_dir m s with
    | Ok (p, m') =>
        stat m' (parts s) = Some Dir
        ∧ (∀ q n, stat m q = Some n → stat m' q = Some n)
        ∧ (∀ q, m' !! q ≠ m !! q → m' !! q = Some Dir ∧ q `prefix_of` parts s)
        ∧ ensure_dir m' s = Ok (p, m')
    | Err _ => True
    end.
Proof.
  unfold ensure_dir.
  destruct (mkdir_parents m [] (parts s)) as [m1|e] eqn:Hmk; simpl.
  - split; [split; [intros _|done]|].
    + intros k content Hk Hf.
      pose proof (mkdir_parents_prefixes _ _ _ _ Hmk k Hk) as Hd.
      pose proof (mkdir_parents_keeps _ _ _ _ _ Hmk Hf). simpl in *. congruence.
    + split_and!.
      * by eapply mkdir_parents_dir.
      * intros [|c q] n; [done|]. cbn [stat]. by eapply mkdir_parents_keeps.
      * intros q Hne. destruct (proj1 (mkdir_parents_ok _ _ _ _ Hmk) q)
          as [?|(_ & Hd & k & _ & ->)]; [done|].
        split; [done|]. simpl. apply prefix_take.
      * rewrite mkdir_parents_again; [done|].
        intros k Hk. by eapply mkdir_parents_prefixes.
  - split; [|done]. split; [done|]. intros H.
    apply mkdir_parents_err in Hmk as (k & content & Hk & Hf). by destruct (H k content).
Qed.

Lemma ensure_dir_creates_witness :
  is_ok (ensure_dir music_fs "music/covers/2024") = true.
Proof.
  apply (proj2 (proj1 (ensure_dir_creates music_fs "music/covers/2024"))).
  intros k content Hk.
  assert (length (parts "music/covers/2024") = 3) as Hlen by reflexivity.
  assert (k = 1 ∨ k = 2 ∨ k = 3) as [-> | [-> | ->]] by lia; vm_compute; congruence.
Defined.

Lemma extensions_disjoint : AUDIO_EXTENSIONS ## VIDEO_EXTENSIONS.
Proof. apply (bool_decide_unpack _). vm_compute. exact I. Qed.

(** X2. No path counts as both audio and video, and whether it counts as
    either depends only on the extension of its last part, letter case
    aside. *)
Theorem audio_video_disjoint (filepath other : string) :
  is_audio filepath && is_video filepath = false
  ∧ (Text.lower (Path_suffix filepath) = Text.lower (Path_suffix other) →
     is_audio filepath = is_audio other ∧ is_video filepath = is_video other).
Proof.
  unfold is_audio, is_video. split.
  - apply andb_false_iff.
    destruct (bool_decide_reflect (Text.lower (Path_suffix filepath) ∈ AUDIO_EXTENSIONS))
      as [Ha|]; [right|by left].
    apply bool_decide_eq_false_2. intros Hv.
    by apply (extensions_disjoint (Text.lower (Path_suffix filepath))).
  - by intros ->.
Qed.

Lemma audio_video_disjoint_witness :
  is_audio "Clip.MP4" = is_audio "b/other.mp4" ∧ is_video "Clip.MP4" = is_video "b/other.mp4".
Proof. apply (proj2 (audio_video_disjoint "Clip.MP4" "b/other.mp4")). reflexivity. Defined.

Lemma copy2_result (m m2 : fs) (src dst : path) :
  copy2 m src dst = Ok m2 →
  ∃ dst' content,
    (dst' = dst ∨ dst' = dst ++ [List.last src ""])
    ∧ src ≠ dst' ∧ stat m dst' ≠ Some Dir ∧ dst' ≠ []
    ∧ stat m src = Some (File content)
    ∧ m2 = <[dst' := File content]> m.
Proof.
  unfold copy2.
  set (dst' := match stat m dst with Some Dir => dst ++ [List.last src ""] | _ => dst end).
  assert (dst' = dst ∨ dst' = dst ++ [List.last src ""]) as Hd
    by (unfold dst'; destruct (stat m dst) as [[]|]; auto).
  destruct (stat m src) as [[content|]|] eqn:Hsrc; [|by case_decide|done].
  case_decide as Hne; [done|].
  destruct (stat m dst') as [[c'|]|] eqn:Hdst; [|done|].
  - destruct (stat m (removelast dst')) as [[]|]; [done| |done].
    intros [= <-]. exists dst', content. split_and!; try done; [congruence|].
    intros E. by rewrite E in Hdst.
  - destruct (stat m (removelast dst')) as [[]|]; [done| |done].
    intros [= <-]. exists dst', content. split_and!; try done; [congruence|].
    intros E. by rewrite E in Hdst.
Qed.

Lemma supported_name_part (filepath : string) :
  is_audio filepath || is_video filepath = true → is_part (Path_name filepath) = true.
Proof.
  unfold is_audio, is_video, Path_suffix.
  destruct (is_part (Path_name filepath)) eqn:Hp; [done|].
  unfold is_part in Hp. apply andb_false_iff in Hp.
  rewrite !negb_false_iff, !String.eqb_eq in Hp. by destruct Hp as [-> | ->].
Qed.

(** X3. Whatever its outcome, [collect_local_file] copies and never moves:
    every directory stays a directory, the source keeps its content, and a
    regular file keeps its content unless it is the destination (target
    directory / file name) or, when that is a directory, the entry of the
    same name inside it. *)
Theorem collect_local_file_preserves (m : fs) (filepath output_dir : string) :
  let m' := (collect_local_file m filepath output_dir).2 in
  let dest := parts output_dir ++ [Path_name filepath] in
  (∀ q, stat m q = Some Dir → stat m' q = Some Dir)
  ∧ (∀ n, stat m (parts filepath) = Some n → stat m' (parts filepath) = Some n)
  ∧ (∀ q content, stat m q = Some (File content) →
       q ≠ dest → q ≠ dest ++ [Path_name filepath] →
       stat m' q = Some (File content)).
Proof.
  cbn zeta. unfold collect_local_file.
  destruct (exists_ m filepath); cbn [negb]; [|done].
  destruct (is_audio filepath || is_video filepath) eqn:Hsup; cbn [negb]; [|done].
  apply supported_name_part in Hsup.
  destruct (ensure_dir m output_dir) as [[dest_dir m1]|e] eqn:Hed; [|done].
  apply ensure_dir_ok_facts in Hed as (-> & _ & Hkeep & _).
  unfold Path_join, Path_of. cbn [comps anchor List.filter]. rewrite Hsup.
  destruct (copy2 m1 _ _) as [m2|e] eqn:Hcp; cbn [snd]; [|by split_and!; eauto].
  apply copy2_result in Hcp as (dst' & content & Hd & Hne & Hnd & Hnil & Hsrc & ->).
  fold (Path_name filepath) in Hd.
  split_and!.
  - intros q Hq. apply Hkeep in Hq.
    destruct (decide (q = dst')) as [->|Hq']; [done|].
    destruct q; [done|]. cbn [stat] in *. by rewrite lookup_insert_ne.
  - intros n Hn. apply Hkeep in Hn.
    destruct (parts filepath) as [|c l] eqn:Hp; [done|]. cbn [stat] in *.
    by rewrite lookup_insert_ne.
  - intros q c Hq Hq1 Hq2. apply Hkeep in Hq.
    destruct q; [done|]. cbn [stat] in *.
    rewrite lookup_insert_ne; [done|]. destruct Hd; congruence.
Qed.

Lemma collect_local_file_preserves_witness :
  stat (collect_local_file collected_fs "out/a.wav" "backup").2 ["out"; "a.wav"]
  = Some (File hello).
Proof.
  apply (proj1 (proj2 (collect_local_file_preserves collected_fs "out/a.wav" "backup"))).
  vm_compute. reflexivity.
Defined.

End CollectorMore.

(** ** The speech-synthesis adapter, continued *)

Section TtsMore.
Import Collector CollectorSpec Tts TtsSpec TtsMoreSpec.

Section Call.
Variables (w : world) (text output_path voice response_format : string).
Variable api_key : option string.

Let run := synthesize_speech w text output_path voice response_format api_key.
Let v := Text.title (Text.strip voice).

Lemma synthesize_invalid :
  valid_request text voice response_format = false →
  run.2 = w ∧ is_ok run.1 = false
  ∧ (run.1 = Err (InvalidFormat response_format) ↔
       (String.length text ≤ 2000 ∧ v ∈ list_voice_names))
  ∧ run.1 ≠ Err MissingApiKey.
Proof.
  unfold valid_request, run, synthesize_speech. fold v.
  destruct (Nat.leb_spec (String.length text) 2000) as [Hle|Hgt].
  - rewrite (proj2 (Nat.ltb_ge _ _) Hle). cbn [andb].
    destruct (bool_decide_reflect (v ∈ list_voice_names)) as [Hv|Hv]; cbn [andb negb].
    + intros ->. cbn [negb fst snd is_ok]. split_and!; try done.
    + intros _. cbn [fst snd is_ok]. split_and!; try done.
      split; [done|]. by intros [_ ?].
  - rewrite (proj2 (Nat.ltb_lt _ _) Hgt). intros _. cbn [fst snd is_ok].
    split_and!; try done. split; [done|]. intros [? _]. lia.
Qed.

Lemma synthesize_no_key :
  valid_request text voice response_format = true →
  resolved_key api_key w = None →
  run = (Err MissingApiKey, w).
Proof.
  unfold valid_request, run, synthesize_speech, resolved_key, _get_api_key. fold v.
  intros [[Hle%Nat.leb_le ->]%andb_prop ->]%andb_prop.
  rewrite (proj2 (Nat.ltb_ge _ _) Hle). cbn [negb].
  destruct api_key as [[|c k]|]; destruct (env_key w) as [[|c' k']|]; done.
Qed.

Lemma synthesize_valid (key : string) :
  valid_request text voice response_format = true →
  resolved_key api_key w = Some key →
  let payload := Request key text v response_format in
  let response := service w payload in
  sent run.2 = sent w ++ [payload]
  ∧ env_key run.2 = env_key w ∧ service run.2 = service w
  ∧ (status_code response ≠ 200 →
       run.1 = Err (SynthesisFailed (status_code response)
                      (Text.take 300 (resp_text response)))
       ∧ files run.2 = files w)
  ∧ (status_code response = 200 →
       match ensure_dir (files w) (Path_str (Path_parent (Path_of output_path))) with
       | Err e => run.1 = Err (WriteFailed e) ∧ files run.2 = files w
       | Ok (_, m1) =>
           match write_bytes m1 (parts output_path) (resp_content response) with
           | Err e => run.1 = Err (WriteFailed e) ∧ files run.2 = m1
           | Ok m2 => run.1 = Ok output_path ∧ files run.2 = m2
           end
       end).
Proof.
  unfold valid_request, run, synthesize_speech, resolved_key, _get_api_key. fold v.
  intros [[Hle%Nat.leb_le ->]%andb_prop ->]%andb_prop Hkey.
  rewrite (proj2 (Nat.ltb_ge _ _) Hle). cbn [negb].
  assert (match api_key with
          | Some (String c k) => Ok (String c k)
          | _ => match env_key w with
                 | Some (String c k) => Ok (String c k)
                 | _ => Err MissingApiKey
                 end
          end = Ok key) as ->.
  { destruct api_key as [[|c k]|]; destruct (env_key w) as [[|c' k']|]; congruence. }
  cbn zeta. cbn [files env_key service sent].
  destruct (Nat.eqb_spec (status_code (service w (Request key text v response_format))) 200)
    as [H200|H200].
  - destruct (ensure_dir _ _) as [[? m1]|e]; [|by split_and!].
    destruct (write_bytes _ _ _) as [m2|e]; by split_and!.
  - by split_and!.
Qed.

End Call.

Lemma take_length (n : nat) (s : string) :
  String.length (Text.take n s) = min n (String.length s).
Proof.
  revert n. induction s as [|c s IH]; intros [|n]; simpl; try done. by rewrite IH.
Qed.

Lemma take_prefix (n : nat) (s : string) : ∃ rest, s = Text.take n s +:+ rest.
Proof.
  revert n. induction s as [|c s IH]; intros [|n]; try (by eexists).
  destruct (IH n) as [rest Hr]. exists rest. cbn [Text.take]. rewrite append_cons. congruence.
Qed.

Lemma synthesize_invalid_format_arg (w : world)
    (text output_path voice response_format : string) (api_key : option string)
    (f : string) :
  (synthesize_speech w text output_path voice response_format api_key).1
  = Err (InvalidFormat f) →
  f = response_format.
Proof.
  unfold synthesize_speech, _get_api_key.
  repeat case_match; simpl; congruence.
Qed.

(** X4. The response format is checked after the text length and the voice,
    and by exact comparison: [synthesize_speech] fails with InvalidFormat
    exactly when the text is within the limit, the voice resolves, and the
    format is none of "mp3", "wav", "opus", "flac" as spelled; the error
    carries the format given and nothing has been sent or written. *)
Theorem synthesize_format_checked (w : world)
    (text output_path voice response_format : string) (api_key : option string) :
  let run := synthesize_speech w text output_path voice response_format api_key in
  ((∃ f, run.1 = Err (InvalidFormat f)) ↔
     String.length text ≤ 2000
     ∧ Text.title (Text.strip voice) ∈ list_voice_names
     ∧ ¬ (response_format = "mp3" ∨ response_format = "wav"
          ∨ response_format = "opus" ∨ response_format = "flac"))
  ∧ ((∃ f, run.1 = Err (InvalidFormat f)) →
       run = (Err (InvalidFormat response_format), w)).
Proof.
  cbn zeta.
  assert (response_format ∈ FORMATS ↔
          (response_format = "mp3" ∨ response_format = "wav"
           ∨ response_format = "opus" ∨ response_format = "flac")) as Hfmt.
  { unfold FORMATS. rewrite !elem_of_cons, elem_of_nil. tauto. }
  rewrite <-Hfmt.
  destruct (valid_request text voice response_format) eqn:Hvalid.
  - assert (∀ f, (synthesize_speech w text output_path voice response_format api_key).1
                 ≠ Err (InvalidFormat f)) as Hno.
    { intros f. destruct (resolved_key api_key w) as [key|] eqn:Hkey.
      - pose proof (synthesize_valid w text output_path voice response_format api_key
                      key Hvalid Hkey) as (_ & _ & _ & Hbad & Hgood).
        cbn zeta in *.
        destruct (decide (status_code (service w (Request key text
                    (Text.title (Text.strip voice)) response_format)) = 200)) as [H|H].
        + specialize (Hgood H). destruct (ensure_dir _ _) as [[? m1]|e].
          * destruct (write_bytes _ _ _); destruct Hgood as [-> _]; done.
          * by destruct Hgood as [-> _].
        + by destruct (Hbad H) as [-> _].
      - by rewrite (synthesize_no_key w text output_path voice response_format api_key). }
    apply andb_prop in Hvalid as [_ Hf%bool_decide_eq_true].
    split; [split|]; [intros [f Hf']; by destruct (Hno f) | tauto | intros [f Hf']; by destruct (Hno f)].
  - pose proof (synthesize_invalid w text output_path voice response_format api_key Hvalid)
      as (Hw & _ & Hiff & _).
    assert ((∃ f, (synthesize_speech w text output_path voice response_format api_key).1
                  = Err (InvalidFormat f))
            ↔ String.length text ≤ 2000 ∧ Text.title (Text.strip voice) ∈ list_voice_names)
      as Hex.
    { rewrite <-Hiff. split; [|by eexists]. intros [f Hf].
      by pose proof (synthesize_invalid_format_arg _ _ _ _ _ _ _ Hf) as ->. }
    split.
    + rewrite Hex. split; [|tauto]. intros [Hle Hv]. split_and!; [done..|].
      intros Hin. unfold valid_request in Hvalid.
      rewrite (proj2 (Nat.leb_le _ _) Hle), !bool_decide_eq_true_2 in Hvalid; done.
    + intros H. apply Hex, Hiff in H.
      destruct (synthesize_speech _ _ _ _ _ _) as [r w']. simpl in *. congruence.
Qed.

Lemma synthesize_format_checked_witness :
  synthesize_speech fresh_world "Good morning" "out/reply.MP3" "idera" "MP3" None
  = (Err (InvalidFormat "MP3"), fresh_world).
Proof.
  apply (proj2 (synthesize_format_checked fresh_world "Good morning" "out/reply.MP3"
                  "idera" "MP3" None)).
  apply (proj2 (proj1 (synthesize_format_checked fresh_world "Good morning"
                         "out/reply.MP3" "idera" "MP3" None))).
  split_and!; [vm_compute; lia | by apply (bool_decide_unpack _); vm_compute |].
  intros [H|[H|[H|H]]]; discriminate.
Defined.

(** X5. [synthesize_speech] uses the key given as argument when it is not
    empty and the environment variable otherwise.  It sends exactly one
    request, carrying that key, the text, the canonical voice name and the
    format, when the three argument checks pass and a key is found; in
    every other case it fails, sends nothing and changes nothing, the
    failure being MissingApiKey when only the key is missing. *)
Theorem synthesize_sends_iff_valid (w : world)
    (text output_path voice response_format : string) (api_key : option string) :
  let run := synthesize_speech w text output_path voice response_format api_key in
  match resolved_key api_key w, valid_request text voice response_format with
  | Some key, true =>
      sent run.2 = sent w ++ [Request key text (Text.title (Text.strip voice)) response_format]
  | None, true => run = (Err MissingApiKey, w)
  | _, false => run.2 = w ∧ is_ok run.1 = false ∧ run.1 ≠ Err MissingApiKey
  end.
Proof.
  cbn zeta.
  destruct (valid_request text voice response_format) eqn:Hvalid.
  - destruct (resolved_key api_key w) as [key|] eqn:Hkey.
    + by apply (synthesize_valid w text output_path voice response_format api_key key).
    + by apply synthesize_no_key.
  - pose proof (synthesize_invalid w text output_path voice response_format api_key Hvalid)
      as (? & ? & _ & ?).
    by destruct (resolved_key api_key w).
Qed.

(** X6. When the service answers with a status other than 200,
    [synthesize_speech] fails with SynthesisFailed carrying that status and
    the first 300 characters of the body at most, and writes no file. *)
Theorem synthesize_http_error (w : world)
    (text output_path voice response_format key : string) (api_key : option string) :
  valid_request text voice response_format = true →
  resolved_key api_key w = Some key →
  let response :=
    service w (Request key text (Text.title (Text.strip voice)) response_format) in
  status_code response ≠ 200 →
  let run := synthesize_speech w text output_path voice response_format api_key in
  ∃ error_msg,
    run.1 = Err (SynthesisFailed (status_code response) error_msg)
    ∧ String.length error_msg = min 300 (String.length (resp_text response))
    ∧ (∃ rest, resp_text response = error_msg +:+ rest)
    ∧ files run.2 = files w.
Proof.
  intros Hvalid Hkey response Hstatus. cbn zeta.
  pose proof (synthesize_valid w text output_path voice response_format api_key
                key Hvalid Hkey) as (_ & _ & _ & Hbad & _).
  destruct (Hbad Hstatus) as [-> ->].
  eexists. split_and!; [done | apply take_length | apply take_prefix | done].
Qed.

Lemma synthesize_http_error_witness :
  ∃ error_msg,
    (synthesize_speech failing_world "Good morning" "out/reply.mp3" "Idera" "mp3" None).1
    = Err (SynthesisFailed 503 error_msg)
    ∧ String.length error_msg = 300.
Proof.
  destruct (synthesize_http_error failing_world "Good morning" "out/reply.mp3" "Idera"
              "mp3" "sk_live_test" None)
    as (msg & H1 & H2 & _); [vm_compute; reflexivity.. | vm_compute; lia |].
  exists msg. split; [exact H1 | exact H2].
Defined.

Lemma removelast_clean (ps : path) :
  Forall (fun c => clean c = true) ps → Forall (fun c => clean c = true) (removelast ps).
Proof.
  induction 1 as [|c l Hc Hl IH]; [constructor|].
  destruct l as [|c' l']; [constructor|]. by constructor.
Qed.

Lemma removelast_length (ps : path) : ps ≠ [] → length (removelast ps) < length ps.
Proof.
  induction ps as [|c l IH]; [done|]. intros _.
  destruct l as [|c' l']; [simpl; lia|].
  change (removelast (c :: c' :: l')) with (c :: removelast (c' :: l')).
  simpl in *. specialize (IH ltac:(done)). lia.
Qed.

(** X7. When the arguments are valid, a key is found and the service
    answers 200, [synthesize_speech] creates the missing directories above
    the output path and writes the response body there: provided the output
    path is written as a file name (no trailing slash), no file is in the
    way of those directories and the output path is not itself a directory,
    it returns the output path, the file at that path holds exactly the
    bytes of the response, and everything else that existed is unchanged. *)
Theorem synthesize_writes_file (w : world)
    (text output_path voice response_format key : string) (api_key : option string) :
  valid_request text voice response_format = true →
  resolved_key api_key w = Some key →
  let response :=
    service w (Request key text (Text.title (Text.strip voice)) response_format) in
  status_code response = 200 →
  names_file output_path = true →
  is_ok (mkdir_parents (files w) [] (removelast (parts output_path))) = true →
  stat (files w) (parts output_path) ≠ Some Dir →
  let run := synthesize_speech w text output_path voice response_format api_key in
  run.1 = Ok output_path
  ∧ stat (files run.2) (parts output_path) = Some (File (resp_content response))
  ∧ (∀ q n, stat (files w) q = Some n → q ≠ parts output_path →
            stat (files run.2) q = Some n).
Proof.
  intros Hvalid Hkey response Hstatus _ Hmk Hnd. cbn zeta.
  pose proof (synthesize_valid w text output_path voice response_format api_key
                key Hvalid Hkey) as (_ & _ & _ & _ & Hgood).
  specialize (Hgood Hstatus). fold response in Hgood.
  assert (parts output_path ≠ []) as Hne by (intros E; by rewrite E in Hnd).
  unfold ensure_dir in Hgood.
  rewrite parts_Path_str in Hgood
    by (cbn [Path_parent comps]; apply removelast_clean, parts_clean).
  cbn [Path_parent Path_of comps] in Hgood.
  destruct (mkdir_parents (files w) [] (removelast (parts output_path)))
    as [m1|e] eqn:Hm1; [|done].
  assert (m1 !! parts output_path = files w !! parts output_path) as Hsame
    by (eapply mkdir_parents_beyond; [done | by apply removelast_length]).
  unfold write_bytes in Hgood.
  rewrite (stat_nonempty m1), Hsame, <-(stat_nonempty (files w)) in Hgood by done.
  rewrite (mkdir_parents_dir _ _ _ Hm1) in Hgood.
  assert (match stat (files w) (parts output_path) with
          | Some Dir => Err (EISDIR (parts output_path))
          | _ => @Ok os_error fs (<[parts output_path := File (resp_content response)]> m1)
          end = Ok (<[parts output_path := File (resp_content response)]> m1)) as Hw
    by (by destruct (stat (files w) (parts output_path)) as [[]|]).
  rewrite Hw in Hgood. destruct Hgood as [-> ->]. split_and!; [done| |].
  - by rewrite stat_nonempty, lookup_insert_eq.
  - intros [|c q] n Hq Hqne; [done|]. cbn [stat] in *.
    rewrite lookup_insert_ne by done. by eapply mkdir_parents_keeps.
Qed.

Lemma synthesize_writes_file_witness :
  (synthesize_speech fresh_world "Good morning" "out/tts/reply.mp3" " idera" "mp3" None).1
  = Ok "out/tts/reply.mp3".
Proof.
  apply (synthesize_writes_file fresh_world "Good morning" "out/tts/reply.mp3" " idera"
           "mp3" "sk_live_test" None); vm_compute; congruence.
Defined.

End TtsMore.

(** ** Batches of syntheses *)

Section TtsBatchFacts.
Import Collector Tts TtsSpec TtsMoreSpec TtsBatch.

Lemma append_length (a b : string) :
  String.length (a +:+ b) = String.length a + String.length b.
Proof.
  induction a as [|c a IH]; [done|]. rewrite append_cons. simpl. by rewrite IH.
Qed.

Lemma append_inv_tail (a b t : string) : a +:+ t = b +:+ t → a = b.
Proof.
  intros H. assert (String.length a = String.length b) as Hlen.
  { apply (f_equal String.length) in H. rewrite !append_length in H. lia. }
  revert b H Hlen. induction a as [|c a IH]; intros [|d b] H Hlen; try done.
  rewrite !append_cons in H. injection H as -> H. f_equal. apply IH; [done|].
  simpl in Hlen. lia.
Qed.

Lemma pretty_N_go_leading (x : N) (s : string) :
  (0 < x)%N → ∃ c r, pretty_N_go x s = String c r ∧ c ≠ "0"%char.
Proof.
  revert s. induction (N.lt_wf_0 x) as [x _ IH]; intros s Hx.
  rewrite pretty_N_go_step by done.
  assert (0 < x < 10 ∨ 10 ≤ x)%N as [[??]|?] by lia.
  - replace (x `div` 10)%N with 0%N by (symmetry; apply N.div_small; lia).
    rewrite pretty_N_go_0, N.mod_small by lia. eexists _, _. split; [done|].
    intros Hzero. apply (pretty_N_char_inj x 0) in Hzero; lia.
  - apply IH; [by apply N.div_lt|]. apply N.div_str_pos. lia.
Qed.

(** Decimal numerals are not empty and start with a zero only when they are
    "0". *)
Lemma pretty_nat_canonical (n : nat) :
  ∃ c r, pretty n = String c r ∧ (c = "0"%char → r = "").
Proof.
  unfold pretty, pretty_nat, pretty, pretty_N. case_decide as Hn.
  - by eexists _, _.
  - destruct (pretty_N_go_leading (N.of_nat n) "") as (c & r & -> & Hc); [lia|].
    by eexists _, _.
Qed.

Lemma zeros_canonical_inj (ka kb : nat) (a b : string) :
  (∃ c r, a = String c r ∧ (c = "0"%char → r = "")) →
  (∃ c r, b = String c r ∧ (c = "0"%char → r = "")) →
  zeros ka +:+ a = zeros kb +:+ b → a = b.
Proof.
  intros Ha Hb. revert kb. induction ka as [|ka IH]; intros [|kb]; cbn [zeros].
  - done.
  - destruct Ha as (c & r & -> & Hc). rewrite append_cons.
    change ("" +:+ String c r) with (String c r). intros [= -> Hr].
    rewrite (Hc eq_refl) in Hr. destruct Hb as (c' & r' & -> & _).
    by destruct (zeros kb).
  - destruct Hb as (c & r & -> & Hc). rewrite append_cons.
    change ("" +:+ String c r) with (String c r). intros [= <- Hr].
    rewrite (Hc eq_refl) in Hr. destruct Ha as (c' & r' & -> & _).
    by destruct (zeros ka).
  - rewrite !append_cons. intros [= H]. by apply (IH kb).
Qed.

Lemma zfill3_inj (i j : nat) : zfill3 i = zfill3 j → i = j.
Proof.
  unfold zfill3. intros H%zeros_canonical_inj; [|apply pretty_nat_canonical..].
  by apply (inj pretty).
Qed.

Lemma batch_output_path_inj (output_dir response_format : string) (i j : nat) :
  batch_output_path output_dir i response_format
  = batch_output_path output_dir j response_format → i = j.
Proof.
  unfold batch_output_path, Processor.path_join. intros H.
  apply zfill3_inj.
  assert ("tts_output_" +:+ zfill3 i +:+ "." +:+ response_format
          = "tts_output_" +:+ zfill3 j +:+ "." +:+ response_format) as H'.
  { destruct (String.eqb output_dir ""); [done|].
    destruct (Text.endswith "/" output_dir).
    - by apply (inj (String.app output_dir)) in H.
    - by apply (inj (String.app output_dir)), (inj (String.app "/")) in H. }
  apply (inj (String.app "tts_output_")) in H'.
  by apply append_inv_tail in H'.
Qed.

Example zfill3_examples :
  zfill3 1 = "001" ∧ zfill3 42 = "042" ∧ zfill3 999 = "999" ∧ zfill3 1000 = "1000"
  ∧ batch_output_path "out/tts" 7 "mp3" = "out/tts/tts_output_007.mp3".
Proof. repeat split; vm_compute; reflexivity. Qed.

Section Loop.
Variables (output_dir voice response_format : string) (api_key : option string).

Let loop w output_paths i todo :=
  batch_synthesize_loop w output_paths i todo output_dir voice response_format api_key.
Let synth w text i :=
  synthesize_speech w text (batch_output_path output_dir i response_format)
    voice response_format api_key.

Lemma synthesize_ok_path (w : world) (text output_path : string) (r : string) :
  (synthesize_speech w text output_path voice response_format api_key).1 = Ok r →
  r = output_path.
Proof.
  unfold synthesize_speech, _get_api_key. repeat case_match; simpl; congruence.
Qed.

Lemma synth_loop_acc (todo : list string) (w : world) (acc : list (option string))
    (i : nat) :
  loop w acc i todo = (acc ++ (loop w [] i todo).1, (loop w [] i todo).2).
Proof.
  unfold loop. revert w acc i.
  induction todo as [|text rest IH]; intros w acc i; cbn [batch_synthesize_loop].
  - by rewrite app_nil_r.
  - destruct (synthesize_speech _ _ _ _ _ _) as [[r|e] w1];
      rewrite (IH _ (acc ++ _)), (IH _ ([] ++ _)); cbn [fst snd];
      by rewrite <-!app_assoc.
Qed.

Lemma synth_loop_cons (text : string) (rest : list string) (w : world) (i : nat) :
  loop w [] i (text :: rest)
  = ((if is_ok (synth w text i).1
      then Some (batch_output_path output_dir i response_format) else None)
     :: (loop (synth w text i).2 [] (S i) rest).1,
     (loop (synth w text i).2 [] (S i) rest).2).
Proof.
  unfold loop at 1, synth. cbn [batch_synthesize_loop].
  destruct (synthesize_speech _ _ _ _ _ _) as [[r|e] w1] eqn:Hs; cbn [fst snd is_ok].
  - rewrite (synthesize_ok_path w text _ r) by (by rewrite Hs).
    exact (synth_loop_acc rest w1 [Some _] (S i)).
  - exact (synth_loop_acc rest w1 [None] (S i)).
Qed.

Lemma synth_loop_length (todo : list string) (w : world) (i : nat) :
  length (loop w [] i todo).1 = length todo.
Proof.
  revert w i. induction todo as [|text rest IH]; intros w i; [done|].
  rewrite synth_loop_cons. cbn [fst length]. by rewrite IH.
Qed.

Lemma synth_loop_lookup (todo : list string) (w : world) (i k : nat) (text : string) :
  todo !! k = Some text →
  (loop w [] i todo).1 !! k
  = Some (if is_ok (synth (loop w [] i (take k todo)).2 text (i + k)).1
          then Some (batch_output_path output_dir (i + k) response_format)
          else None).
Proof.
  revert w i k. induction todo as [|text0 rest IH]; intros w i k; [done|].
  destruct k as [|k]; rewrite synth_loop_cons; cbn [fst].
  - intros [= ->]. by rewrite Nat.add_0_r.
  - intros Hk. cbn [take]. rewrite synth_loop_cons. cbn [snd].
    rewrite lookup_cons, (IH _ _ _ Hk). by rewrite Nat.add_succ_r.
Qed.

Lemma synth_loop_rejected (todo : list string) (w : world) (i : nat) :
  (∀ text output_path,
     ∃ e, synthesize_speech w text output_path voice response_format api_key = (Err e, w)) →
  loop w [] i todo = (replicate (length todo) None, w).
Proof.
  intros Hrej. revert i. induction todo as [|text rest IH]; intros i; [done|].
  rewrite synth_loop_cons. unfold synth.
  destruct (Hrej text (batch_output_path output_dir i response_format)) as [e ->].
  cbn [fst snd is_ok]. by rewrite IH.
Qed.

End Loop.

(** X8. [batch_synthesize] returns one entry per text, in order: the output
    path "tts_output_NNN.<format>" in the output directory, numbered from
    001, when the synthesis of that text succeeded, and no path when it
    failed, later texts being synthesized all the same.  No two entries of
    one batch name the same file. *)
Theorem batch_synthesize_one_entry_per_text (w : world) (texts : list string)
    (output_dir voice response_format : string) (api_key : option string) :
  let run := batch_synthesize w texts output_dir voice response_format api_key in
  length run.1 = length texts
  ∧ (∀ k text, texts !! k = Some text →
       let w_k := (batch_synthesize_loop w [] 1 (take k texts) output_dir voice
                     response_format api_key).2 in
       let output_path := batch_output_path output_dir (S k) response_format in
       run.1 !! k
       = Some (if is_ok (synthesize_speech w_k text output_path voice
                           response_format api_key).1
               then Some output_path else None))
  ∧ (∀ i j output_path,
       run.1 !! i = Some (Some output_path) → run.1 !! j = Some (Some output_path) →
       i = j).
Proof.
  cbn zeta. unfold batch_synthesize.
  assert (∀ k text, texts !! k = Some text →
            (batch_synthesize_loop w [] 1 texts output_dir voice response_format
               api_key).1 !! k
            = Some (if is_ok (synthesize_speech
                                (batch_synthesize_loop w [] 1 (take k texts) output_dir
                                   voice response_format api_key).2
                                text (batch_output_path output_dir (S k) response_format)
                                voice response_format api_key).1
                    then Some (batch_output_path output_dir (S k) response_format)
                    else None)) as Hlook.
  { intros k text Hk.
    exact (synth_loop_lookup output_dir voice response_format api_key texts w 1 k text Hk). }
  split_and!.
  - apply synth_loop_length.
  - exact Hlook.
  - assert (∀ i output_path,
              (batch_synthesize_loop w [] 1 texts output_dir voice response_format
                 api_key).1 !! i = Some (Some output_path) →
              output_path = batch_output_path output_dir (S i) response_format) as Hname.
    { intros i output_path Hi.
      assert (is_Some (texts !! i)) as [text Ht].
      { apply lookup_lt_is_Some. apply lookup_lt_Some in Hi.
        by rewrite synth_loop_length in Hi. }
      rewrite (Hlook i text Ht) in Hi. by destruct (is_ok _); simplify_eq. }
    intros i j output_path Hi%Hname Hj%Hname.
    assert (S i = S j)
      by (apply (batch_output_path_inj output_dir response_format); congruence).
    lia.
Qed.

Lemma batch_synthesize_one_entry_per_text_witness :
  (batch_synthesize fresh_world ["Good morning"; chars 2001 "a"; "Good night"]
     "out/tts" "idera" "mp3" None).1 !! 2
  = Some (Some "out/tts/tts_output_003.mp3").
Proof.
  rewrite (proj1 (proj2 (batch_synthesize_one_entry_per_text fresh_world
                           ["Good morning"; chars 2001 "a"; "Good night"]
                           "out/tts" "idera" "mp3" None)) 2 "Good night" eq_refl).
  vm_compute. reflexivity.
Defined.

(** X9. When the voice does not resolve, the format is not one of the four,
    or no key is found, [batch_synthesize] returns no path for any of the
    texts, sends nothing and changes nothing. *)
Theorem batch_synthesize_rejected (w : world) (texts : list string)
    (output_dir voice response_format : string) (api_key : option string) :
  Text.title (Text.strip voice) ∉ list_voice_names
  ∨ response_format ∉ FORMATS
  ∨ resolved_key api_key w = None →
  batch_synthesize w texts output_dir voice response_format api_key
  = (replicate (length texts) None, w).
Proof.
  intros Hbad. unfold batch_synthesize. apply synth_loop_rejected.
  intros text output_path.
  destruct (valid_request text voice response_format) eqn:Hvalid.
  - destruct Hbad as [Hv|[Hf|Hkey]].
    + apply andb_prop in Hvalid as [[_ ?%bool_decide_eq_true]%andb_prop _]. done.
    + apply andb_prop in Hvalid as [_ ?%bool_decide_eq_true]. done.
    + exists MissingApiKey. by apply synthesize_no_key.
  - pose proof (synthesize_invalid w text output_path voice response_format api_key
                  Hvalid) as (Hw & Hok & _).
    destruct (synthesize_speech _ _ _ _ _ _) as [[r|e] w']; [done|].
    exists e. simpl in Hw. by rewrite Hw.
Qed.

Lemma batch_synthesize_rejected_witness :
  batch_synthesize fresh_world ["Good morning"; "Good night"] "out/tts" "idera" "ogg" None
  = ([None; None], fresh_world).
Proof.
  apply (batch_synthesize_rejected fresh_world ["Good morning"; "Good night"]
           "out/tts" "idera" "ogg" None).
  right. left. intros H%(bool_decide_eq_true_2 _). vm_compute in H. discriminate.
Defined.

End TtsBatchFacts.

(** ** The conversation adapter, continued *)

Section StripFacts.

Lemma lstrip_head (s : string) :
  Text.lstrip s = "" ∨ ∃ c r, Text.lstrip s = String c r ∧ Text.isspace c = false.
Proof.
  induction s as [|c s IH]; [by left|]. simpl.
  destruct (Text.isspace c) eqn:Hc; [done|]. right. by eexists _, _.
Qed.

Lemma rstrip_cons (c : ascii) (r : string) :
  Text.rstrip (String c r)
  = match Text.rstrip r with
    | EmptyString => if Text.isspace c then EmptyString else String c EmptyString
    | r' => String c r'
    end.
Proof. reflexivity. Qed.

Lemma rstrip_idem (s : string) : Text.rstrip (Text.rstrip s) = Text.rstrip s.
Proof.
  induction s as [|c s IH]; [done|]. rewrite rstrip_cons.
  destruct (Text.rstrip s) as [|d r] eqn:Hr.
  - destruct (Text.isspace c) eqn:Hc; [done|]. rewrite rstrip_cons. simpl. by rewrite Hc.
  - rewrite rstrip_cons. by rewrite IH.
Qed.

Lemma rstrip_keeps_head (c : ascii) (r : string) :
  Text.isspace c = false → ∃ r', Text.rstrip (String c r) = String c r'.
Proof.
  intros Hc. rewrite rstrip_cons. destruct (Text.rstrip r); [rewrite Hc|]; by eexists.
Qed.

(** [strip] leaves nothing to strip. *)
Lemma strip_idem (s : string) : Text.strip (Text.strip s) = Text.strip s.
Proof.
  unfold Text.strip. destruct (lstrip_head s) as [->|(c & r & -> & Hc)]; [done|].
  destruct (rstrip_keeps_head c r Hc) as [r' Hr]. rewrite Hr.
  cbn [Text.lstrip]. rewrite Hc, <-Hr. apply rstrip_idem.
Qed.

End StripFacts.

Section LlmMore.
Import Llm LlmSpec LlmFactory.

Lemma push_user_last (user_text : string) (h : list message) :
  last (push_user user_text h) = Some (Message "user" user_text).
Proof.
  rewrite push_user_eq, drop_app_le by lia. apply last_snoc.
Qed.

Lemma push_user_from (user_text : string) (h : list message) (m : message) :
  m ∈ push_user user_text h → m ∈ h ∨ m = Message "user" user_text.
Proof.
  rewrite push_user_eq. intros Hm%subseteq_drop.
  apply elem_of_app in Hm as [?|?%list_elem_of_singleton]; auto.
Qed.

(** X10. What [GroqProvider.ask] sends: the system prompt followed by the
    trimmed history, at most 21 messages in all, ending with the user turn
    just asked (the trim never drops it); every other message comes from the
    history as it was; and the outcome depends on the service only through
    its answer to that list.  A reply that is returned has no white space
    left at either end. *)
Theorem groq_request_shape (create : groq_backend) (user_text : string)
    (h : list message) :
  let messages := Message "system" SYSTEM_PROMPT :: push_user user_text h in
  head messages = Some (Message "system" SYSTEM_PROMPT)
  ∧ last messages = Some (Message "user" user_text)
  ∧ length messages ≤ 21
  ∧ (∀ m, m ∈ push_user user_text h → m ∈ h ∨ m = Message "user" user_text)
  ∧ (∀ create' : groq_backend,
       create' messages = create messages →
       groq_ask create' user_text h = groq_ask create user_text h)
  ∧ (∀ reply, (groq_ask create user_text h).1 = Ok reply → Text.strip reply = reply).
Proof.
  cbn zeta. split_and!.
  - done.
  - pose proof (push_user_last user_text h) as Hl.
    destruct (push_user user_text h) as [|m0 l] eqn:Hp; [done|].
    by rewrite last_cons, Hl.
  - simpl. rewrite push_user_length. lia.
  - apply push_user_from.
  - intros create' Heq. unfold groq_ask. by rewrite Heq.
  - intros reply. unfold groq_ask. destruct (create _) as [completion|e]; [|done].
    cbn [fst]. intros [= <-]. apply strip_idem.
Qed.

Lemma groq_request_shape_witness :
  groq_ask (fun _ => Ok (Some "  fine  ")) "hello" []
  = groq_ask (fun msgs => if decide (length msgs = 2) then Ok (Some "  fine  ")
                          else Err (BackendError "unexpected")) "hello" [].
Proof.
  apply (proj1 (proj2 (proj2 (proj2 (proj2
           (groq_request_shape
              (fun msgs => if decide (length msgs = 2) then Ok (Some "  fine  ")
                           else Err (BackendError "unexpected")) "hello" [])))))).
  reflexivity.
Defined.

(** X11. [MoneiProvider.ask] posts the user text alone: its reply, or its
    failure, is the same whatever the history holds, and the history it
    leaves differs from the trimmed one by the assistant turn at most. *)
Theorem monei_reply_ignores_history (post : monei_backend) (user_text : string)
    (h h' : list message) :
  (monei_ask post user_text h).1 = (monei_ask post user_text h').1
  ∧ (monei_ask post user_text h).1
    = match post user_text with
      | Ok resp => _parse_sse resp
      | Err e => Err e
      end.
Proof.
  unfold monei_ask. destruct (post user_text) as [resp|e]; [|done].
  by destruct (_parse_sse resp).
Qed.

End LlmMore.

Section FactoryFacts.
Import Llm LlmFactory.

Example create_provider_examples :
  let pl := Platform None (fun _ _ => Ok []) in
  create_provider (<["MONEI_API_KEY" := "k1"]> ∅) pl = Ok (MoneiProvider (monei_http pl "k1"))
  ∧ create_provider (<["LLM_PROVIDER" := " GROQ "]> (<["GROQ_API_KEY" := "k2"]> ∅)) pl
    = Err PackageMissing
  ∧ create_provider (<["LLM_PROVIDER" := "openai"]> ∅) pl
    = Err (UnknownProvider "openai" "groq, monei")
  ∧ create_provider (<["LLM_PROVIDER" := "monei"]> (<["MONEI_API_KEY" := ""]> ∅)) pl
    = Err (KeyNotSet "MONEI_API_KEY").
Proof. repeat split; vm_compute; reflexivity. Qed.

(** X12. [create_provider] reads LLM_PROVIDER (default "monei"), in lower
    case and stripped.  It returns the Groq provider only for "groq" with a
    non-empty GROQ_API_KEY and the groq package present, and the Monei
    provider only for "monei" with a non-empty MONEI_API_KEY, each built on
    its own key; a missing or empty key gives KeyNotSet for that variable
    (for Groq before the package is looked for), and any other name gives
    UnknownProvider listing "groq, monei". *)
Theorem create_provider_outcomes (env : gmap string string) (pl : platform) :
  let name := Text.strip (Text.lower (default "monei" (env !! "LLM_PROVIDER"))) in
  match create_provider env pl with
  | Ok (GroqProvider create) =>
      name = "groq"
      ∧ ∃ key Groq, env !! "GROQ_API_KEY" = Some key ∧ key ≠ ""
                    ∧ groq_package pl = Some Groq ∧ create = Groq key
  | Ok (MoneiProvider post) =>
      name = "monei"
      ∧ ∃ key, env !! "MONEI_API_KEY" = Some key ∧ key ≠ "" ∧ post = monei_http pl key
  | Err PackageMissing =>
      name = "groq" ∧ groq_package pl = None
      ∧ ∃ key, env !! "GROQ_API_KEY" = Some key ∧ key ≠ ""
  | Err (KeyNotSet variable) =>
      (env !! variable = None ∨ env !! variable = Some "")
      ∧ ((name = "groq" ∧ variable = "GROQ_API_KEY")
         ∨ (name = "monei" ∧ variable = "MONEI_API_KEY"))
  | Err (UnknownProvider shown choices) =>
      shown = name ∧ name ≠ "groq" ∧ name ≠ "monei" ∧ choices = "groq, monei"
  end.
Proof.
  cbn zeta. unfold create_provider, getenv.
  set (name := Text.strip (Text.lower (default "monei" (env !! "LLM_PROVIDER")))).
  cbn [_PROVIDERS dict_get].
  destruct (String.eqb_spec "groq" name) as [<-|Hg].
  - unfold GroqProvider_init, getenv.
    destruct (env !! "GROQ_API_KEY") as [[|c k]|] eqn:Hk.
    + split; [by right | by left].
    + destruct (groq_package pl) as [Groq|] eqn:Hp.
      * split; [done|]. by exists (String c k), Groq.
      * split_and!; [done..|]. by exists (String c k).
    + split; [by left | by left].
  - destruct (String.eqb_spec "monei" name) as [<-|Hm].
    + unfold MoneiProvider_init, getenv.
      destruct (env !! "MONEI_API_KEY") as [[|c k]|] eqn:Hk.
      * split; [by right | by right].
      * split; [done|]. by exists (String c k).
      * split; [by left | by right].
    + split_and!; done.
Qed.

End FactoryFacts.

(** ** The processor, continued *)

Section ProcessorMore.
Import Collector CollectorSpec Processor ProcessorSpec.

Lemma lower_append (a b : string) :
  Text.lower (a +:+ b) = Text.lower a +:+ Text.lower b.
Proof.
  induction a as [|c a IH]; [done|]. rewrite append_cons. simpl.
  by rewrite IH, append_cons.
Qed.

Lemma drop_append (a b : string) (n : nat) :
  Text.drop (String.length a + n) (a +:+ b) = Text.drop n b.
Proof. induction a as [|c a IH]; [done|]. by rewrite append_cons. Qed.

Lemma take_append (a b : string) : Text.take (String.length a) (a +:+ b) = a.
Proof.
  induction a as [|c a IH]; [by destruct b|]. rewrite append_cons. simpl. by rewrite IH.
Qed.

Lemma endswith_append (p a b : string) :
  Text.endswith p b = true → Text.endswith p (a +:+ b) = true.
Proof.
  unfold Text.endswith. intros [Hlen%Nat.leb_le Heq]%andb_prop.
  rewrite append_length.
  replace (String.length a + String.length b - String.length p)
    with (String.length a + (String.length b - String.length p)) by lia.
  rewrite drop_append, Heq. apply andb_true_intro. split; [|done].
  apply Nat.leb_le. lia.
Qed.

Lemma join_snoc (sep : string) (l : list string) (x : string) :
  ∃ pre, Text.join sep (l ++ [x]) = pre +:+ x.
Proof.
  induction l as [|y l [pre IH]]; [by exists ""|].
  exists (y +:+ sep +:+ pre).
  change ((y :: l) ++ [x]) with (y :: (l ++ [x])).
  destruct (l ++ [x]) as [|z l'] eqn:Hl; [by destruct l|].
  change (Text.join sep (y :: z :: l')) with (y +:+ sep +:+ Text.join sep (z :: l')).
  by rewrite IH, !append_assoc.
Qed.

Lemma is_part_wav (stem : string) : is_part (stem +:+ ".wav") = true.
Proof.
  unfold is_part. apply andb_true_intro.
  split; apply negb_true_iff, String.eqb_neq; intros E;
    apply (f_equal String.length) in E; rewrite append_length in E; simpl in E; lia.
Qed.

Lemma joined_wav (dir : Path) (stem : string) :
  Text.endswith ".wav" (Text.lower (Path_str (Path_join dir (stem +:+ ".wav")))) = true.
Proof.
  unfold Path_join, Path_str. cbn [List.filter anchor comps]. rewrite is_part_wav.
  destruct (join_snoc "/" (comps dir) (stem +:+ ".wav")) as [pre Hj].
  assert (∀ front, Text.endswith ".wav"
                     (Text.lower (front +:+ pre +:+ stem +:+ ".wav")) = true) as Hend.
  { intros front. rewrite <-!append_assoc, lower_append. by apply endswith_append. }
  destruct (anchor dir).
  - destruct (comps dir ++ [stem +:+ ".wav"]) as [|c l] eqn:Hc; [by destruct (comps dir)|].
    rewrite Hj. apply (Hend "").
  - rewrite Hj. apply (Hend "/").
  - rewrite Hj. apply (Hend "//").
Qed.

Example process_file_blocked_directory :
  (process_file video_tools
     (World (<[ ["blocked"] := File [] ]> (files video_world)) [] [])
     "clips/Talk.MP4" "blocked" "base" None).1
  = Err (Exn "NotADirectoryError" "[Errno 20] Not a directory: 'blocked/extracted_audio'").
Proof. vm_compute. reflexivity. Qed.

Lemma ensure_wav_of_wav {Wave Stamp : Type} (t : @tools Wave Stamp) (w : world)
    (audio_path : string) :
  Text.endswith ".wav" (Text.lower audio_path) = true →
  _ensure_wav t w audio_path = (Ok audio_path, w).
Proof. unfold _ensure_wav. by intros ->. Qed.

Lemma commands_print (line : string) (w : world) : commands (print line w) = commands w.
Proof. done. Qed.

Lemma files_print (line : string) (w : world) : files (print line w) = files w.
Proof. done. Qed.

Section WithTools.
Context {Wave Stamp : Type}.
Variable t : @tools Wave Stamp.

Lemma ensure_wav_commands (w : world) (audio_path : string) :
  let run := _ensure_wav t w audio_path in
  let cmd := ffmpeg_cmd (_get_ffmpeg_path t) audio_path
               (Text.rsplit_dot_head audio_path +:+ "_converted.wav") in
  (run = (Ok audio_path, w) ∧ Text.endswith ".wav" (Text.lower audio_path) = true)
  ∨ (Text.endswith ".wav" (Text.lower audio_path) = false
     ∧ commands run.2 = commands w ++ [cmd]
     ∧ (∀ p, run.1 = Ok p →
          p = audio_path ∨ p = Text.rsplit_dot_head audio_path +:+ "_converted.wav")).
Proof.
  cbn zeta. unfold _ensure_wav.
  destruct (Text.endswith ".wav" (Text.lower audio_path)); [by left|right].
  split; [done|].
  destruct (subprocess_run t _ _) as [[result|e] m]; cbn [fst snd commands].
  - destruct (negb _); cbn [fst snd commands print]; split; [done| |done|]; intros p [= <-]; auto.
  - by split.
Qed.

Lemma transcribe_audio_facts (w : world) (audio_path model_size : string)
    (language : option string) :
  let run := transcribe_audio t w audio_path model_size language in
  (∀ r, run.1 = Ok r →
     t_audio_path r = audio_path
     ∧ Text.strip (t_text r) = t_text r
     ∧ Forall (fun seg => Text.strip (seg_text seg) = seg_text seg) (t_segments r)
     ∧ exists_ (files w) audio_path = true)
  ∧ (commands run.2 = commands w
     ∨ (Text.endswith ".wav" (Text.lower audio_path) = false
        ∧ commands run.2
          = commands w ++ [ffmpeg_cmd (_get_ffmpeg_path t) audio_path
                             (Text.rsplit_dot_head audio_path +:+ "_converted.wav")]))
  ∧ (exists_ (files w) audio_path = false → run.2 = w ∧ is_ok run.1 = false).
Proof.
  cbn zeta. unfold transcribe_audio.
  destruct (whisper t) as [model_transcribe|]; [|by split_and!; [|left|]].
  destruct (exists_ (files w) audio_path) eqn:Hex; cbn [negb]; [|by split_and!; [|left|]].
  set (w0 := print _ w).
  pose proof (ensure_wav_commands w0 audio_path) as Hcmd. cbn zeta in Hcmd.
  assert (commands (_ensure_wav t w0 audio_path).2 = commands w
          ∨ (Text.endswith ".wav" (Text.lower audio_path) = false
             ∧ commands (_ensure_wav t w0 audio_path).2
               = commands w ++ [ffmpeg_cmd (_get_ffmpeg_path t) audio_path
                                  (Text.rsplit_dot_head audio_path +:+ "_converted.wav")]))
    as Hc.
  { destruct Hcmd as [[-> _]|(? & ? & _)]; [by left | by right]. }
  clear Hcmd.
  destruct (_ensure_wav t w0 audio_path) as [[wav_path|e] w1]; cbn [fst snd] in *;
    [|by split_and!].
  destruct (_load_audio_as_numpy t (files w1) wav_path) as [audio_array|e];
    cbn [fst snd]; [|by split_and!].
  destruct (model_transcribe _ _ _) as [result|e]; cbn [fst snd]; [|by split_and!].
  split_and!; [|done|done].
  intros r [= <-]. cbn [t_audio_path t_text t_segments]. split_and!; [done| |  |done].
  - apply strip_idem.
  - apply Forall_fmap, Forall_true. intros seg. apply strip_idem.
Qed.

End WithTools.

Lemma rfind_from_none (i : nat) (ch : ascii) (s : string) :
  no_char ch s = true → Text.rfind_from i ch s = None.
Proof.
  revert i. induction s as [|c s IH]; intros i; [done|]. simpl.
  intros [Hc Hs]%andb_prop. rewrite IH by done. apply negb_true_iff in Hc. by rewrite Hc.
Qed.

Lemma rfind_from_last (i : nat) (ch : ascii) (stem ext : string) :
  no_char ch ext = true →
  Text.rfind_from i ch (stem +:+ String ch ext) = Some (i + String.length stem).
Proof.
  intros Hext. revert i. induction stem as [|c stem IH]; intros i.
  - change ("" +:+ String ch ext) with (String ch ext). simpl.
    rewrite rfind_from_none, Ascii.eqb_refl by done. f_equal. lia.
  - rewrite append_cons. simpl. rewrite IH. f_equal. lia.
Qed.

Lemma rsplit_dot_head_ext (stem ext : string) :
  no_char "." ext = true → Text.rsplit_dot_head (stem +:+ "." +:+ ext) = stem.
Proof.
  intros Hext. unfold Text.rsplit_dot_head, Text.rfind.
  change ("." +:+ ext) with (String "." ext).
  rewrite rfind_from_last by done. apply take_append.
Qed.

(** X13. A transcription that [transcribe_audio] returns carries the path it
    was asked for (also when a converted copy was read), its text and the
    text of each segment have no white space left at either end, and the
    file existed when the call was made. *)
Theorem transcribe_audio_result {Wave Stamp : Type} (t : @tools Wave Stamp) (w : world)
    (audio_path model_size : string) (language : option string)
    (r : @transcription Stamp) :
  (transcribe_audio t w audio_path model_size language).1 = Ok r →
  t_audio_path r = audio_path
  ∧ Text.strip (t_text r) = t_text r
  ∧ Forall (fun seg => Text.strip (seg_text seg) = seg_text seg) (t_segments r)
  ∧ exists_ (files w) audio_path = true
  ∧ is_Some (whisper t).
Proof.
  intros Hr.
  destruct (transcribe_audio_facts t w audio_path model_size language) as (Hok & _ & _).
  destruct (Hok r Hr) as (? & ? & ? & ?). split_and!; try done.
  unfold transcribe_audio in Hr. by destruct (whisper t).
Qed.

Lemma transcribe_audio_result_witness :
  t_audio_path (Transcription "clips/talk.mp3" "hello world" "en" [Segment 0 2 "hello world"])
  = "clips/talk.mp3".
Proof.
  apply (transcribe_audio_result demo_tools demo_world "clips/talk.mp3" "base" None).
  vm_compute. reflexivity.
Defined.

(** X14. [transcribe_audio] runs at most one command, the ffmpeg conversion,
    and only for a path that does not end in ".wav".  The import of whisper
    comes first: without whisper the call fails with ImportError whether the
    file exists or not; with whisper, a file that does not exist gives
    FileNotFoundError.  Either way nothing is run or printed. *)
Theorem transcribe_audio_effects {Wave Stamp : Type} (t : @tools Wave Stamp) (w : world)
    (audio_path model_size : string) (language : option string) :
  let run := transcribe_audio t w audio_path model_size language in
  (commands run.2 = commands w
   ∨ (Text.endswith ".wav" (Text.lower audio_path) = false
      ∧ commands run.2
        = commands w ++ [[_get_ffmpeg_path t; "-y"; "-i"; audio_path; "-ar"; "16000";
                          "-ac"; "1"; "-f"; "wav";
                          Text.rsplit_dot_head audio_path +:+ "_converted.wav"]]))
  ∧ (Text.endswith ".wav" (Text.lower audio_path) = true → commands run.2 = commands w)
  ∧ (whisper t = None →
       run = (Err (Exn "ImportError"
                     "openai-whisper is required. Install: pip install openai-whisper"), w))
  ∧ (is_Some (whisper t) → exists_ (files w) audio_path = false →
       run = (Err (Exn "FileNotFoundError" ("Audio file not found: " +:+ audio_path)), w)).
Proof.
  cbn zeta.
  destruct (transcribe_audio_facts t w audio_path model_size language) as (_ & Hc & _).
  split_and!.
  - exact Hc.
  - intros Hwav. destruct Hc as [?|[? _]]; [done|congruence].
  - unfold transcribe_audio. by intros ->.
  - unfold transcribe_audio. intros [model_transcribe ->] ->. done.
Qed.

Lemma transcribe_audio_effects_witness :
  transcribe_audio bare_tools demo_world "clips/gone.mp3" "base" None
  = (Err (Exn "ImportError"
            "openai-whisper is required. Install: pip install openai-whisper"),
     demo_world).
Proof.
  apply (proj1 (proj2 (proj2 (transcribe_audio_effects bare_tools demo_world
                                "clips/gone.mp3" "base" None)))).
  reflexivity.
Defined.

Lemma text_take_drop (n : nat) (s : string) : Text.take n s +:+ Text.drop n s = s.
Proof.
  revert n. induction s as [|c s IH]; intros [|n]; try done.
  cbn [Text.take Text.drop]. by rewrite append_cons, IH.
Qed.

Lemma endswith_slash (a : string) :
  Text.endswith "/" a = true → ∃ a', a = a' +:+ "/".
Proof.
  unfold Text.endswith. intros [_ Heq%String.eqb_eq]%andb_prop.
  exists (Text.take (String.length a - String.length "/") a).
  transitivity (Text.take (String.length a - String.length "/") a
                +:+ Text.drop (String.length a - String.length "/") a).
  - symmetry. apply text_take_drop.
  - by rewrite Heq.
Qed.

Lemma split_nonempty (ch : ascii) (s : string) : Text.split ch s ≠ [].
Proof.
  induction s as [|c s IH]; [done|]. simpl.
  destruct (Ascii.eqb c ch); [done|]. by destruct (Text.split ch s).
Qed.

Lemma split_append_sep (ch : ascii) (a b : string) :
  Text.split ch (a +:+ String ch b) = Text.split ch a ++ Text.split ch b.
Proof.
  induction a as [|c a IH].
  - change ("" +:+ String ch b) with (String ch b). simpl. by rewrite Ascii.eqb_refl.
  - rewrite append_cons. simpl. rewrite IH.
    destruct (Ascii.eqb c ch); [done|].
    pose proof (split_nonempty ch a). by destruct (Text.split ch a).
Qed.

Lemma parts_append_sep (a b : string) : parts (a +:+ String "/" b) = parts a ++ parts b.
Proof. unfold parts. by rewrite split_append_sep, List.filter_app. Qed.

(** [os.path.join] adds the parts of its second argument to those of the
    first. *)
Lemma parts_path_join (a b : string) : parts (path_join a b) = parts a ++ parts b.
Proof.
  unfold path_join. destruct (String.eqb_spec a "") as [->|Hne]; [done|].
  destruct (Text.endswith "/" a) eqn:Hend.
  - destruct (endswith_slash a Hend) as [a' ->].
    rewrite append_assoc. change ("/" +:+ b) with (String "/" b).
    rewrite parts_append_sep. change (a' +:+ "/") with (a' +:+ String "/" "").
    rewrite parts_append_sep. change (parts "") with (@nil string). by rewrite app_nil_r.
  - change ("/" +:+ b) with (String "/" b). apply parts_append_sep.
Qed.

Lemma no_char_append (ch : ascii) (a b : string) :
  no_char ch (a +:+ b) = no_char ch a && no_char ch b.
Proof.
  induction a as [|c a IH]; [done|]. rewrite append_cons. simpl.
  by rewrite IH, andb_assoc.
Qed.

Lemma no_char_take (ch : ascii) (n : nat) (s : string) :
  no_char ch s = true → no_char ch (Text.take n s) = true.
Proof.
  revert n. induction s as [|c s IH]; intros [|n]; try done. simpl.
  intros [-> Hs]%andb_prop. by rewrite IH.
Qed.

Lemma stem_wav_clean (filepath : string) : clean (Path_stem filepath +:+ ".wav") = true.
Proof.
  unfold clean. rewrite is_part_wav, no_char_append. cbn [andb].
  rewrite andb_true_r. unfold Path_stem. apply no_char_take.
  destruct (parts filepath) as [|c l] eqn:Hp.
  - unfold Path_name. by rewrite Hp.
  - assert (clean (Path_name filepath) = true) as Hc
      by (apply Path_name_clean; by rewrite Hp).
    by apply andb_prop in Hc as [_ ?].
Qed.

Lemma process_file_video_steps {Wave Stamp : Type} (t : @tools Wave Stamp) (w : world)
    (filepath output_dir model_size : string) (language : option string)
    (write_audiofile : string → string → fs → result exn fs) (dest_dir : Path) (m1 : fs) :
  is_video filepath = true →
  moviepy t = Some write_audiofile →
  exists_ (files w) filepath = true →
  ensure_dir (files w) (path_join output_dir "extracted_audio") = Ok (dest_dir, m1) →
  let extracted :=
    Path_str (Path_join (Path_of (path_join output_dir "extracted_audio"))
                (Path_stem filepath +:+ ".wav")) in
  let w1 := World m1 (stdout w ++ ["  [Extracting audio] " +:+ filepath +:+ " -> "
                                   +:+ extracted]) (commands w) in
  process_file t w filepath output_dir model_size language
  = match write_audiofile filepath extracted m1 with
    | Err e => (Err e, w1)
    | Ok m2 =>
        transcribe_audio t (World m2 (stdout w1) (commands w)) extracted
          model_size language
    end.
Proof.
  intros Hvideo Hmovie Hex Hdir. cbn zeta.
  unfold process_file, extract_audio_from_video.
  rewrite Hvideo, Hmovie, Hex. cbn [negb]. rewrite Hdir.
  apply ensure_dir_ok_facts in Hdir as (-> & _).
  cbn [print files stdout commands].
  by destruct (write_audiofile _ _ _).
Qed.

(** X15. For a video file [process_file] never runs ffmpeg.  With moviepy,
    an existing video and a directory "<output_dir>/extracted_audio" that
    can be created, the audio track is written by [write_audiofile] to
    "<stem>.wav" in that directory, a path that already ends in ".wav": if
    the writing fails so does the call, and otherwise the outcome is that of
    [transcribe_audio] on the extracted path over the files as the writing
    left them.  The transcription returned carries the extracted path, not
    the path of the video. *)
Theorem process_file_video {Wave Stamp : Type} (t : @tools Wave Stamp) (w : world)
    (filepath output_dir model_size : string) (language : option string) :
  is_video filepath = true →
  let run := process_file t w filepath output_dir model_size language in
  let audio_dir := path_join output_dir "extracted_audio" in
  let extracted :=
    Path_str (Path_join (Path_of audio_dir) (Path_stem filepath +:+ ".wav")) in
  commands run.2 = commands w
  ∧ Text.endswith ".wav" (Text.lower extracted) = true
  ∧ parts extracted = parts output_dir ++ ["extracted_audio"; Path_stem filepath +:+ ".wav"]
  ∧ (∀ r, run.1 = Ok r → t_audio_path r = extracted)
  ∧ (∀ write_audiofile dest_dir m1,
       moviepy t = Some write_audiofile →
       exists_ (files w) filepath = true →
       ensure_dir (files w) audio_dir = Ok (dest_dir, m1) →
       let w1 := World m1 (stdout w ++ ["  [Extracting audio] " +:+ filepath +:+ " -> "
                                        +:+ extracted]) (commands w) in
       match write_audiofile filepath extracted m1 with
       | Err e => run = (Err e, w1)
       | Ok m2 =>
           run = transcribe_audio t (World m2 (stdout w1) (commands w)) extracted
                   model_size language
       end).
Proof.
  intros Hvideo. cbn zeta.
  assert (∀ r, (process_file t w filepath output_dir model_size language).1 = Ok r →
            t_audio_path r
            = Path_str (Path_join (Path_of (path_join output_dir "extracted_audio"))
                          (Path_stem filepath +:+ ".wav"))) as Hpath.
  { unfold process_file, extract_audio_from_video. rewrite Hvideo.
    destruct (moviepy t) as [write_audiofile|]; [|done].
    destruct (exists_ (files w) filepath); cbn [negb]; [|done].
    unfold ensure_dir.
    destruct (mkdir_parents _ _ _) as [m|e]; [|done].
    destruct (write_audiofile _ _ _) as [m'|e]; [|done].
    intros r Hr.
    apply (proj1 (transcribe_audio_facts t _ _ model_size language)) in Hr.
    by destruct Hr as (? & _). }
  assert (commands (process_file t w filepath output_dir model_size language).2
          = commands w) as Hcmd.
  { unfold process_file, extract_audio_from_video. rewrite Hvideo.
    destruct (moviepy t) as [write_audiofile|]; [|done].
    destruct (exists_ (files w) filepath); cbn [negb]; [|done].
    unfold ensure_dir.
    destruct (mkdir_parents _ _ _) as [m|e]; [|done].
    destruct (write_audiofile _ _ _) as [m'|e]; [|done].
    cbn [print files stdout commands].
    match goal with
    | |- commands (transcribe_audio t ?w0 ?p model_size language).2 = _ =>
        destruct (transcribe_audio_facts t w0 p model_size language)
          as (_ & [Hc|[Hc _]] & _)
    end.
    + exact Hc.
    + by rewrite joined_wav in Hc. }
  split_and!; [exact Hcmd|apply joined_wav| |exact Hpath|].
  - rewrite parts_Path_str.
    + unfold Path_join, Path_of. cbn [comps anchor List.filter].
      rewrite is_part_wav, parts_path_join. by rewrite <-app_assoc.
    + unfold Path_join, Path_of. cbn [comps anchor List.filter]. rewrite is_part_wav.
      apply Forall_app. split; [apply parts_clean|].
      repeat constructor. apply stem_wav_clean.
  - intros write_audiofile dest_dir m1 Hmovie Hex Hdir.
    rewrite (process_file_video_steps t w filepath output_dir model_size language
               write_audiofile dest_dir m1 Hvideo Hmovie Hex Hdir).
    by destruct (write_audiofile _ _ _).
Qed.

Lemma process_file_video_witness :
  ∃ r, (process_file video_tools video_world "clips/Talk.MP4" "output" "base" None).1 = Ok r
       ∧ t_audio_path r = "output/extracted_audio/Talk.wav".
Proof.
  eexists. split; [vm_compute; reflexivity|].
  apply (proj1 (proj2 (proj2 (proj2 (process_file_video video_tools video_world
                                       "clips/Talk.MP4" "output" "base" None eq_refl))))).
  vm_compute. reflexivity.
Defined.

(** X16. [process_file] rejects a path whose extension is neither audio nor
    video with a ValueError.  For a video the import of moviepy comes
    before everything else, and for an audio file the import of whisper:
    when the library is missing the error is an ImportError whether the file
    exists or not, and only with the library is a file that does not exist
    reported, as a FileNotFoundError.  None of these rejections runs, prints
    or writes anything. *)
Theorem process_file_rejects_without_effect {Wave Stamp : Type} (t : @tools Wave Stamp)
    (w : world) (filepath output_dir model_size : string) (language : option string) :
  let run := process_file t w filepath output_dir model_size language in
  (is_video filepath = false → is_audio filepath = false →
     run = (Err (Exn "ValueError" ("Unsupported file format: " +:+ filepath)), w))
  ∧ (is_video filepath = true → moviepy t = None →
     run = (Err (Exn "ImportError" "moviepy is required. Install: pip install moviepy"), w))
  ∧ (is_video filepath = true → is_Some (moviepy t) →
     exists_ (files w) filepath = false →
     run = (Err (Exn "FileNotFoundError" ("Video not found: " +:+ filepath)), w))
  ∧ (is_video filepath = false → is_audio filepath = true → whisper t = None →
     run = (Err (Exn "ImportError"
                   "openai-whisper is required. Install: pip install openai-whisper"), w))
  ∧ (is_video filepath = false → is_audio filepath = true → is_Some (whisper t) →
     exists_ (files w) filepath = false →
     run = (Err (Exn "FileNotFoundError" ("Audio file not found: " +:+ filepath)), w)).
Proof.
  cbn zeta. unfold process_file, extract_audio_from_video, transcribe_audio. split_and!.
  - by intros -> ->.
  - by intros -> ->.
  - by intros -> [write_audiofile ->] ->.
  - by intros -> -> ->.
  - by intros -> -> [model_transcribe ->] ->.
Qed.

Lemma process_file_rejects_without_effect_witness :
  process_file demo_tools demo_world "clips/gone.mp4" "output" "base" None
  = (Err (Exn "ImportError" "moviepy is required. Install: pip install moviepy"),
     demo_world).
Proof.
  apply (proj1 (proj2 (process_file_rejects_without_effect demo_tools demo_world
                         "clips/gone.mp4" "output" "base" None))); reflexivity.
Defined.

(** X17. The path [_ensure_wav] returns is the input path or the converted
    file, whose name is the input up to its last dot followed by
    "_converted.wav"; for an input "<stem>.<ext>" whose [ext] has no dot
    that is "<stem>_converted.wav".  The converted path ends in ".wav", so a
    further [_ensure_wav] on it runs nothing. *)
Theorem ensure_wav_output_name {Wave Stamp : Type} (t : @tools Wave Stamp) (w : world)
    (audio_path : string) :
  let run := _ensure_wav t w audio_path in
  (∀ p, run.1 = Ok p →
     p = audio_path ∨ p = Text.rsplit_dot_head audio_path +:+ "_converted.wav")
  ∧ (∀ p w', run.1 = Ok p → p ≠ audio_path → _ensure_wav t w' p = (Ok p, w'))
  ∧ (∀ stem ext, audio_path = stem +:+ "." +:+ ext → no_char "." ext = true →
       Text.rsplit_dot_head audio_path +:+ "_converted.wav" = stem +:+ "_converted.wav").
Proof.
  cbn zeta.
  assert (∀ p, (_ensure_wav t w audio_path).1 = Ok p →
            p = audio_path ∨ p = Text.rsplit_dot_head audio_path +:+ "_converted.wav")
    as Hname.
  { intros p Hp. destruct (ensure_wav_commands t w audio_path) as [[Hrun _]|(_ & _ & H)].
    - rewrite Hrun in Hp. left. by injection Hp.
    - by apply H. }
  split_and!.
  - exact Hname.
  - intros p w' Hp Hne. destruct (Hname p Hp) as [?| ->]; [done|].
    apply ensure_wav_of_wav. rewrite lower_append. by apply endswith_append.
  - intros stem ext -> Hext. by rewrite rsplit_dot_head_ext.
Qed.

Lemma ensure_wav_output_name_witness :
  Text.rsplit_dot_head "tmp_audio/3f9a.webm" +:+ "_converted.wav"
  = "tmp_audio/3f9a_converted.wav".
Proof.
  apply (proj2 (proj2 (ensure_wav_output_name demo_tools demo_world "tmp_audio/3f9a.webm"))
           "tmp_audio/3f9a" "webm"); reflexivity.
Defined.

End ProcessorMore.

(** ** The pipeline *)

Section PipelineFacts.
Import Collector CollectorSpec Processor Tts TtsMoreSpec TtsBatch Pipeline PipelineSpec.

Lemma ensure_dir_keeps (m m' : fs) (s : string) (p : Path) :
  ensure_dir m s = Ok (p, m') → ∀ q n, m !! q = Some n → m' !! q = Some n.
Proof.
  unfold ensure_dir.
  destruct (mkdir_parents m [] (parts s)) as [m1|e] eqn:Hmk; [|done].
  intros [= <- <-] q n. by eapply mkdir_parents_keeps.
Qed.

Lemma keeps_stat (m m' : fs) :
  (∀ q n, m !! q = Some n → m' !! q = Some n) →
  ∀ q n, stat m q = Some n → stat m' q = Some n.
Proof. intros H [|c q] n; [done|]. apply H. Qed.

Lemma ensure_dirs_facts (dirs : list string) (m m' : fs) (r : result os_error unit) :
  ensure_dirs m dirs = (r, m') →
  (∀ q n, m !! q = Some n → m' !! q = Some n)
  ∧ (is_ok r = true →
       Forall (fun d => stat m' (parts d) = Some Dir) dirs
       ∧ ∀ m2, (∀ q n, m' !! q = Some n → m2 !! q = Some n) →
               ensure_dirs m2 dirs = (Ok tt, m2)).
Proof.
  revert m. induction dirs as [|d dirs IH]; intros m; cbn [ensure_dirs].
  - intros [= <- <-]. split; [done|]. intros _. split; [constructor|done].
  - destruct (ensure_dir m d) as [[p m1]|e] eqn:Hd; [|by intros [= <- <-]].
    intros [Hkeep Hok]%IH.
    pose proof (ensure_dir_keeps _ _ _ _ Hd) as Hk1.
    apply ensure_dir_ok_facts in Hd as (_ & Hdir & _ & Hstable).
    split; [by auto|]. intros Hr. destruct (Hok Hr) as [Hall Hagain]. split.
    + constructor; [|done]. by apply (keeps_stat m1 m' Hkeep).
    + intros m2 Hm2. rewrite (Hstable m2) by auto. by apply Hagain.
Qed.

Lemma mkdir_parents_same_files (todo : list string) (m m1 : fs) (q : path)
    (content : list Byte.byte) :
  mkdir_parents m [] todo = Ok m1 →
  m1 !! q = Some (File content) ↔ m !! q = Some (File content).
Proof.
  intros [Hp _]%mkdir_parents_ok.
  destruct (Hp q) as [->|(Hnone & Hdir & _)]; [done|]. by rewrite Hnone, Hdir.
Qed.

Lemma ensure_dir_ok_iff (m : fs) (s : string) :
  is_ok (ensure_dir m s) = true
  ↔ ∀ k content, 0 < k ≤ length (parts s) → m !! take k (parts s) ≠ Some (File content).
Proof.
  unfold ensure_dir.
  destruct (mkdir_parents m [] (parts s)) as [m1|e] eqn:Hmk; cbn [is_ok].
  - split; [intros _|done]. intros k content Hk Hf.
    pose proof (mkdir_parents_prefixes _ _ _ _ Hmk k Hk) as Hd.
    pose proof (mkdir_parents_keeps _ _ _ _ _ Hmk Hf). simpl in *. congruence.
  - split; [done|]. intros H.
    apply mkdir_parents_err in Hmk as (k & content & Hk & Hf). by destruct (H k content).
Qed.

Lemma ensure_dirs_ok_iff (dirs : list string) (m : fs) :
  is_ok (ensure_dirs m dirs).1 = true
  ↔ Forall (fun d => ∀ k content, 0 < k ≤ length (parts d) →
                       m !! take k (parts d) ≠ Some (File content)) dirs.
Proof.
  revert m. induction dirs as [|d dirs IH]; intros m; cbn [ensure_dirs].
  - split; [constructor|done].
  - rewrite Forall_cons, <-ensure_dir_ok_iff.
    destruct (ensure_dir m d) as [[p m1]|e] eqn:Hd; cbn [is_ok fst]; [|by split; [|intros []]].
    unfold ensure_dir in Hd.
    destruct (mkdir_parents m [] (parts d)) as [m1'|e] eqn:Hmk; [|done].
    injection Hd as _ <-. rewrite IH.
    assert (∀ d', (∀ k content, 0 < k ≤ length (parts d') →
                     m1' !! take k (parts d') ≠ Some (File content))
                  ↔ (∀ k content, 0 < k ≤ length (parts d') →
                       m !! take k (parts d') ≠ Some (File content))) as Hsame.
    { intros d'. split; intros H k content Hk;
        [rewrite <-(mkdir_parents_same_files _ _ _ _ _ Hmk)
        |rewrite (mkdir_parents_same_files _ _ _ _ _ Hmk)]; by apply H. }
    split.
    + intros Hall. split; [done|]. eapply Forall_impl; [exact Hall|].
      intros d'. apply Hsame.
    + intros [_ Hall]. eapply Forall_impl; [exact Hall|]. intros d'. apply Hsame.
Qed.

(** X18. Constructing a [SpeechPipeline] succeeds exactly when no regular
    file lies on the way to any of the four working directories
    "collected", "extracted_audio", "transcriptions" and "tts_output" under
    the output directory.  When it succeeds the four directories exist and
    the pipeline starts with nothing collected and nothing transcribed;
    whatever existed before is still there, also when the construction
    fails; and constructing a second pipeline on the same output directory
    changes nothing. *)
Theorem pipeline_init_dirs {Stamp : Type} (m : fs) (output_dir whisper_model : string) :
  let run := init (Stamp:=Stamp) m output_dir whisper_model in
  let dirs := ["collected"; "extracted_audio"; "transcriptions"; "tts_output"] in
  (is_ok run.1 = true ↔
     ∀ d k content, d ∈ dirs → 0 < k ≤ length (parts output_dir ++ [d]) →
       m !! take k (parts output_dir ++ [d]) ≠ Some (File content))
  ∧ (∀ q n, stat m q = Some n → stat run.2 q = Some n)
  ∧ ∀ self, run.1 = Ok self →
      Pipeline.output_dir self = output_dir
      ∧ collected_files self = [] ∧ transcriptions self = []
      ∧ Forall (fun d => stat run.2 (parts output_dir ++ [d]) = Some Dir) dirs
      ∧ init run.2 output_dir whisper_model = (Ok self, run.2).
Proof.
  cbn zeta. split.
  - transitivity (is_ok (ensure_dirs m [collect_dir output_dir; audio_dir output_dir;
                                        transcription_dir output_dir;
                                        tts_dir output_dir]).1 = true).
    { unfold init. by destruct (ensure_dirs m _) as [[[]|e] m']. }
    rewrite ensure_dirs_ok_iff, !Forall_cons.
    unfold collect_dir, audio_dir, transcription_dir, tts_dir.
    rewrite !parts_path_join.
    change (parts "collected") with ["collected"].
    change (parts "extracted_audio") with ["extracted_audio"].
    change (parts "transcriptions") with ["transcriptions"].
    change (parts "tts_output") with ["tts_output"].
    split.
    + intros (H1 & H2 & H3 & H4 & _) d k content Hd.
      rewrite !elem_of_cons, elem_of_nil in Hd.
      destruct Hd as [->|[->|[->|[->|[]]]]]; auto.
    + intros H. split_and!; [..|constructor]; intros k content; apply H;
        rewrite !elem_of_cons; auto.
  - unfold init.
    destruct (ensure_dirs m _) as [r m'] eqn:Hdirs.
    apply ensure_dirs_facts in Hdirs as [Hkeep Hok].
    destruct r as [[]|e]; cbn [fst snd].
    + split; [by apply keeps_stat|]. intros self [= <-].
      destruct (Hok eq_refl) as [Hall Hagain]. split_and!; [done..| |].
      * unfold collect_dir, audio_dir, transcription_dir, tts_dir in Hall.
        rewrite !Forall_cons in Hall. rewrite !parts_path_join in Hall.
        destruct Hall as (? & ? & ? & ? & _). by repeat constructor.
      * by rewrite (Hagain m').
    + split; [by apply keeps_stat|done].
Qed.

Lemma pipeline_init_dirs_witness :
  is_ok (init (Stamp:=nat) music_fs "output" "base").1 = true.
Proof.
  apply (proj2 (proj1 (pipeline_init_dirs (Stamp:=nat) music_fs "output" "base"))).
  intros d k content Hd Hk.
  assert (length (parts "output" ++ [d]) = 2) as Hlen by reflexivity.
  rewrite !elem_of_cons, elem_of_nil in Hd.
  assert (k = 1 ∨ k = 2) as Hcases by lia.
  destruct Hd as [->|[->|[->|[->|[]]]]]; destruct Hcases as [->| ->];
    vm_compute; congruence.
Defined.

Lemma spoken_texts_from {Stamp : Type} (ts : list (@batch_item Stamp)) (text : string) :
  text ∈ spoken_texts ts →
  text ≠ "" ∧ ∃ r, Transcribed r ∈ ts ∧ t_text r = text.
Proof.
  unfold spoken_texts. intros ([r|fp e] & Hin & Hsome)%list_elem_of_omap; [|done].
  destruct (t_text r) as [|c rest] eqn:Ht; [done|]. injection Hsome as <-.
  split; [done|]. by exists r.
Qed.

Lemma spoken_texts_length {Stamp : Type} (ts : list (@batch_item Stamp)) :
  length (spoken_texts ts) ≤ length ts.
Proof.
  unfold spoken_texts. induction ts as [|t ts IH]; [done|]. cbn [omap list_omap].
  destruct t as [r|fp e]; [destruct (t_text r)|]; simpl in *; lia.
Qed.

Lemma synth_loop_sent (output_dir voice response_format : string)
    (api_key : option string) (todo : list string) (w : world)
    (acc : list (option string)) (i : nat) (q : request) :
  q ∈ sent (batch_synthesize_loop w acc i todo output_dir voice response_format api_key).2 →
  q ∈ sent w ∨ req_text q ∈ todo.
Proof.
  revert w acc i. induction todo as [|text rest IH]; intros w acc i;
    cbn [batch_synthesize_loop]; [by left|].
  pose proof (synthesize_sent w text (batch_output_path output_dir i response_format)
                voice response_format api_key q) as Hstep.
  destruct (synthesize_speech _ _ _ _ _ _) as [[r|e] w1]; cbn [snd] in Hstep;
    intros [Hq|Hq]%IH; try (right; by right);
    (destruct (Hstep Hq) as [?|[<- _]]; [by left | right; by left]).
Qed.

Lemma spoken_texts_transcripts {Stamp : Type} (ts : list (@batch_item Stamp)) :
  spoken_texts ts = transcripts ts.
Proof.
  unfold spoken_texts, transcripts. induction ts as [|item ts IH]; [done|].
  rewrite fmap_cons. cbn [omap list_omap List.filter]. rewrite IH.
  destruct item as [r|fp e]; cbn [item_text]; [|done].
  by destruct (t_text r).
Qed.

Lemma synth_loop_sent_valid (output_dir voice response_format : string)
    (api_key : option string) (key : string) (todo : list string) (w : world)
    (acc : list (option string)) (i : nat) :
  Text.title (Text.strip voice) ∈ list_voice_names →
  response_format ∈ FORMATS →
  resolved_key api_key w = Some key →
  sent (batch_synthesize_loop w acc i todo output_dir voice response_format api_key).2
  = sent w ++ ((fun text => Request key text (Text.title (Text.strip voice)) response_format)
               <$> List.filter (fun text => String.length text <=? 2000) todo).
Proof.
  intros Hvoice Hformat. revert w acc i.
  induction todo as [|text rest IH]; intros w acc i Hkey;
    cbn [batch_synthesize_loop List.filter]; [by rewrite app_nil_r|].
  assert (valid_request text voice response_format = (String.length text <=? 2000))
    as Hvalid.
  { unfold valid_request. rewrite !bool_decide_eq_true_2 by done.
    by rewrite !andb_true_r. }
  destruct (String.length text <=? 2000) eqn:Hlen.
  - pose proof (synthesize_valid w text (batch_output_path output_dir i response_format)
                  voice response_format api_key key Hvalid Hkey) as (Hsent & Henv & _).
    destruct (synthesize_speech _ _ _ _ _ _) as [[r|e] w1]; cbn [snd] in Hsent, Henv;
      (rewrite IH; [|unfold resolved_key in *; by rewrite Henv]);
      rewrite Hsent, fmap_cons, <-app_assoc; done.
  - pose proof (synthesize_invalid w text (batch_output_path output_dir i response_format)
                  voice response_format api_key Hvalid) as (Hw & _).
    destruct (synthesize_speech _ _ _ _ _ _) as [[r|e] w1]; cbn [snd] in Hw; subst w1;
      by apply IH.
Qed.

(** X19. [speak_transcriptions] synthesizes the transcripts that are not
    empty, in order, skipping error records and empty transcripts: its
    outcome is that of [batch_synthesize] on these texts in the "tts_output"
    directory, so it returns one entry per such text (possibly fewer than
    there are transcriptions), the k-th entry naming "tts_output_<k>"
    whatever the position of the transcript was.  With a valid voice and
    format and a key in the environment, the requests sent are exactly one
    per transcript of at most 2000 characters, in order, with the canonical
    voice name; in any case a request carries the non-empty text of a
    transcript; and with nothing to speak nothing is sent. *)
Theorem speak_transcriptions_only_transcripts {Stamp : Type} (w : world)
    (self : @SpeechPipeline Stamp) (voice response_format : string) :
  let run := speak_transcriptions w self voice response_format in
  let texts := transcripts (transcriptions self) in
  run = batch_synthesize w texts (tts_dir (Pipeline.output_dir self))
          voice response_format None
  ∧ length run.1 = length texts
  ∧ length run.1 ≤ length (transcriptions self)
  ∧ (∀ q, q ∈ sent run.2 →
       q ∈ sent w
       ∨ (req_text q ≠ "" ∧ ∃ r, Transcribed r ∈ transcriptions self
                                 ∧ t_text r = req_text q))
  ∧ (∀ k p, run.1 !! k = Some (Some p) →
       p = batch_output_path (tts_dir (Pipeline.output_dir self)) (S k) response_format)
  ∧ (∀ key, Text.title (Text.strip voice) ∈ list_voice_names →
       response_format ∈ FORMATS →
       resolved_key None w = Some key →
       sent run.2
       = sent w ++ ((fun text => Request key text (Text.title (Text.strip voice))
                                   response_format)
                    <$> List.filter (fun text => String.length text <=? 2000) texts))
  ∧ (texts = [] → run = ([], w)).
Proof.
  cbn zeta. rewrite <-spoken_texts_transcripts.
  assert (speak_transcriptions w self voice response_format
          = batch_synthesize w (spoken_texts (transcriptions self))
              (tts_dir (Pipeline.output_dir self)) voice response_format None) as ->.
  { unfold speak_transcriptions. by destruct (spoken_texts _). }
  unfold batch_synthesize.
  assert (length (batch_synthesize_loop w [] 1 (spoken_texts (transcriptions self))
                    (tts_dir (Pipeline.output_dir self)) voice response_format None).1
          = length (spoken_texts (transcriptions self))) as Hlen
    by apply synth_loop_length.
  split_and!.
  - done.
  - exact Hlen.
  - rewrite Hlen. apply spoken_texts_length.
  - intros q [?|Hq]%synth_loop_sent; [by left|right]. by apply spoken_texts_from.
  - intros k p Hk.
    assert (is_Some (spoken_texts (transcriptions self) !! k)) as [text Ht].
    { apply lookup_lt_is_Some. apply lookup_lt_Some in Hk. by rewrite Hlen in Hk. }
    rewrite (synth_loop_lookup _ _ _ _ _ _ 1 k text Ht) in Hk.
    cbn [Nat.add] in Hk. by destruct (is_ok _); simplify_eq.
  - intros key Hvoice Hformat Hkey. by apply synth_loop_sent_valid.
  - by intros ->.
Qed.

Lemma speak_transcriptions_only_transcripts_witness :
  sent (speak_transcriptions TtsSpec.fresh_world spoken_pipeline " idera " "mp3").2
  = [Request "sk_live_test" "good morning" "Idera" "mp3";
     Request "sk_live_test" "good night" "Idera" "mp3"].
Proof.
  apply (proj1 (proj2 (proj2 (proj2 (proj2 (proj2
           (speak_transcriptions_only_transcripts TtsSpec.fresh_world spoken_pipeline
              " idera " "mp3"))))))
           "sk_live_test").
  - vm_compute. repeat constructor.
  - repeat constructor.
  - reflexivity.
Defined.

End PipelineFacts.

(** ** Collecting a directory *)

Section CollectorDirFacts.
Import Collector CollectorSpec Processor CollectorDir CollectorDirSpec.

Example collect_from_directory_example :
  (collect_from_directory music_fs [("music", ["notes.txt"; "Song.MP3"])] "music" "out").1
  = Ok ["out/Song.MP3"]
  ∧ sorted ["b.wav"; "a.mp3"; "B.wav"] = ["B.wav"; "a.mp3"; "b.wav"].
Proof. split; vm_compute; reflexivity. Qed.

Lemma collect_local_file_ok_path (m m' : fs) (filepath output_dir result : string) :
  collect_local_file m filepath output_dir = (Ok result, m') →
  result = Path_str (Path_join (Path_of output_dir) (Path_name filepath)).
Proof.
  unfold collect_local_file.
  destruct (exists_ m filepath); cbn [negb]; [|done].
  destruct (is_audio filepath || is_video filepath); cbn [negb]; [|done].
  destruct (ensure_dir m output_dir) as [[dest_dir m1]|e] eqn:Hd; [|done].
  apply ensure_dir_ok_facts in Hd as (-> & _).
  destruct (copy2 _ _ _); [|done]. by intros [= <- _].
Qed.

Section Walk.
Variable output_dir : string.

(** Where a collected file lands, and when a file is taken at all. *)
Let landing (fpath : string) : string :=
  Path_str (Path_join (Path_of output_dir) (Path_name fpath)).
Let taken (fpath : string) : Prop := is_audio fpath || is_video fpath = true.

Lemma collect_files_facts (files : list string) (m : fs) (collected : list string)
    (root : string) :
  ∃ added,
    (collect_files m collected root files output_dir).1 = collected ++ added
    ∧ length added ≤ length files
    ∧ ∀ p, p ∈ added →
        ∃ fname, fname ∈ files ∧ taken (path_join root fname)
                 ∧ p = landing (path_join root fname).
Proof.
  revert m collected. induction files as [|fname rest IH]; intros m collected;
    cbn [collect_files].
  - exists []. rewrite app_nil_r. split_and!; [done..|]. by intros p ?%elem_of_nil.
  - destruct (is_audio (path_join root fname) || is_video (path_join root fname)) eqn:Hs.
    + destruct (collect_local_file m (path_join root fname) output_dir)
        as [[result|e] m1] eqn:Hc.
      * destruct (IH m1 (collected ++ [result])) as (added & -> & Hlen & Hfrom).
        exists (result :: added). rewrite <-app_assoc. split_and!; [done|simpl; lia|].
        intros p [->|Hp]%elem_of_cons.
        -- exists fname. split_and!; [by left|done|].
           by apply collect_local_file_ok_path in Hc.
        -- destruct (Hfrom p Hp) as (f & ? & ? & ?). exists f. split_and!; [by right|done..].
      * destruct (IH m1 collected) as (added & -> & Hlen & Hfrom).
        exists added. split_and!; [done|simpl; lia|].
        intros p Hp. destruct (Hfrom p Hp) as (f & ? & ? & ?).
        exists f. split_and!; [by right|done..].
    + destruct (IH m collected) as (added & -> & Hlen & Hfrom).
      exists added. split_and!; [done|simpl; lia|].
      intros p Hp. destruct (Hfrom p Hp) as (f & ? & ? & ?).
      exists f. split_and!; [by right|done..].
Qed.

Lemma collect_walk_facts (walk : list (string * list string)) (m : fs)
    (collected : list string) :
  ∃ added,
    (collect_walk m collected walk output_dir).1 = collected ++ added
    ∧ length added ≤ length (concat (walk.*2))
    ∧ ∀ p, p ∈ added →
        ∃ root files fname,
          (root, files) ∈ walk ∧ fname ∈ files ∧ taken (path_join root fname)
          ∧ p = landing (path_join root fname).
Proof.
  revert m collected. induction walk as [|[root files] rest IH]; intros m collected;
    cbn [collect_walk].
  - exists []. rewrite app_nil_r. split_and!; [done..|]. by intros p ?%elem_of_nil.
  - destruct (collect_files_facts (sorted files) m collected root)
      as (added1 & H1 & Hlen1 & Hfrom1).
    destruct (collect_files m collected root (sorted files) output_dir)
      as [collected1 m1]. cbn [fst] in H1. subst collected1.
    destruct (IH m1 (collected ++ added1)) as (added2 & -> & Hlen2 & Hfrom2).
    exists (added1 ++ added2). rewrite <-app_assoc. split_and!; [done| |].
    + rewrite fmap_cons. cbn [concat snd]. rewrite !length_app.
      assert (length (sorted files) = length files) as Hs
        by (unfold sorted; by rewrite merge_sort_Permutation).
      lia.
    + intros p [Hp|Hp]%elem_of_app.
      * destruct (Hfrom1 p Hp) as (f & Hf & ? & ?). exists root, files, f.
        split_and!; [by left| |done..].
        unfold sorted in Hf. by rewrite merge_sort_Permutation in Hf.
      * destruct (Hfrom2 p Hp) as (r & fs' & f & ? & ? & ? & ?). exists r, fs', f.
        split_and!; [by right|done..].
Qed.

End Walk.

Lemma collect_local_file_success (m m1 : fs) (filepath output_dir : string)
    (content : list Byte.byte) :
  let dest := parts output_dir ++ [Path_name filepath] in
  exists_ m filepath = true →
  stat m (parts filepath) = Some (File content) →
  is_audio filepath || is_video filepath = true →
  mkdir_parents m [] (parts output_dir) = Ok m1 →
  dest ≠ parts filepath → stat m dest ≠ Some Dir →
  collect_local_file m filepath output_dir
  = (Ok (Path_str (Path_join (Path_of output_dir) (Path_name filepath))),
     <[dest := File content]> m1).
Proof.
  intros dest Hex Hsrc Hsup Hmk Hne Hdst. unfold collect_local_file.
  rewrite Hex, Hsup. cbn [negb]. unfold ensure_dir. rewrite Hmk.
  assert (parts filepath ≠ []) as Hparts by (intros E; by rewrite E in Hsrc).
  pose proof (supported_name_part filepath Hsup) as Hpart.
  unfold Path_join, Path_of. cbn [comps anchor List.filter]. rewrite Hpart.
  fold dest.
  assert (dest ≠ []) as Hdne by (unfold dest; by destruct (parts output_dir)).
  rewrite stat_nonempty in Hsrc, Hdst by done.
  assert (m1 !! dest = m !! dest) as Hd1.
  { eapply mkdir_parents_beyond; [done|]. unfold dest. rewrite length_app. simpl. lia. }
  rewrite (copy2_fresh m1 _ _ content); [done| | | |].
  - rewrite stat_nonempty by done. by eapply mkdir_parents_keeps.
  - done.
  - rewrite stat_nonempty by done. by rewrite Hd1.
  - unfold dest. rewrite removelast_last. by eapply mkdir_parents_dir.
Qed.

Lemma collect_local_file_frame (m : fs) (filepath output_dir : string) :
  let m' := (collect_local_file m filepath output_dir).2 in
  let dest := parts output_dir ++ [Path_name filepath] in
  (∀ q, stat m q = Some Dir → stat m' q = Some Dir)
  ∧ (∀ q content, stat m q = Some (File content) →
       q ≠ dest → q ≠ dest ++ [Path_name filepath] →
       stat m' q = Some (File content)).
Proof.
  cbn zeta. unfold collect_local_file.
  destruct (exists_ m filepath); cbn [negb]; [|done].
  destruct (is_audio filepath || is_video filepath) eqn:Hsup; cbn [negb]; [|done].
  apply supported_name_part in Hsup.
  destruct (ensure_dir m output_dir) as [[dest_dir m1]|e] eqn:Hed; [|done].
  apply ensure_dir_ok_facts in Hed as (-> & _ & Hkeep & _).
  unfold Path_join, Path_of. cbn [comps anchor List.filter]. rewrite Hsup.
  destruct (copy2 m1 _ _) as [m2|e] eqn:Hcp; cbn [snd]; [|by split; eauto].
  apply copy2_result in Hcp as (dst' & content & Hd & Hne & Hnd & Hnil & Hsrc & ->).
  fold (Path_name filepath) in Hd.
  split.
  - intros q Hq. apply Hkeep in Hq.
    destruct (decide (q = dst')) as [->|Hq']; [done|].
    destruct q; [done|]. cbn [stat] in *. by rewrite lookup_insert_ne.
  - intros q c Hq Hq1 Hq2. apply Hkeep in Hq.
    destruct q; [done|]. cbn [stat] in *.
    rewrite lookup_insert_ne; [done|]. destruct Hd; congruence.
Qed.

Lemma collect_local_file_new (m : fs) (filepath output_dir : string) (q : path) :
  let m' := (collect_local_file m filepath output_dir).2 in
  let dest := parts output_dir ++ [Path_name filepath] in
  stat m q = None →
  stat m' q = None
  ∨ (stat m' q = Some Dir ∧ q `prefix_of` parts output_dir)
  ∨ q = dest ∨ q = dest ++ [Path_name filepath].
Proof.
  cbn zeta. intros Hq. destruct q as [|c q]; [done|]. cbn [stat] in *.
  unfold collect_local_file.
  destruct (exists_ m filepath); cbn [negb snd]; [|by left].
  destruct (is_audio filepath || is_video filepath) eqn:Hsup; cbn [negb snd]; [|by left].
  apply supported_name_part in Hsup.
  unfold ensure_dir.
  destruct (mkdir_parents m [] (parts output_dir)) as [m1|e] eqn:Hmk; cbn [snd]; [|by left].
  assert (m1 !! (c :: q) = None
          ∨ (m1 !! (c :: q) = Some Dir ∧ (c :: q) `prefix_of` parts output_dir)) as Hm1.
  { destruct (proj1 (mkdir_parents_ok _ _ _ _ Hmk) (c :: q)) as [Heq|(_ & Hd & k & _ & Hk)].
    - left. by rewrite Heq.
    - right. split; [done|]. rewrite Hk. apply prefix_take. }
  unfold Path_join, Path_of. cbn [comps anchor List.filter]. rewrite Hsup.
  destruct (copy2 m1 _ _) as [m2|e] eqn:Hcp; cbn [snd].
  - apply copy2_result in Hcp as (dst' & content & Hd & _ & _ & _ & _ & ->).
    fold (Path_name filepath) in Hd.
    destruct (decide (c :: q = dst')) as [->|Hne].
    + right. right. destruct Hd as [->| ->]; [by left|by right].
    + rewrite lookup_insert_ne by done. destruct Hm1 as [?|?]; [by left|by right; left].
  - destruct Hm1 as [?|?]; [by left|by right; left].
Qed.

Section Each.
Variable output_dir : string.

Let dest (fpath : string) : path := parts output_dir ++ [Path_name fpath].
Let landing (fpath : string) : string :=
  Path_str (Path_join (Path_of output_dir) (Path_name fpath)).

Lemma collect_files_each (files : list string) (m : fs) (collected : list string)
    (root : string) :
  collect_files m collected root files output_dir
  = (collected
     ++ (collect_each m (List.filter supported (path_join root <$> files)) output_dir).1,
     (collect_each m (List.filter supported (path_join root <$> files)) output_dir).2).
Proof.
  revert m collected. induction files as [|fname rest IH]; intros m collected;
    rewrite ?fmap_cons; cbn [collect_files List.filter collect_each fmap list_fmap].
  - cbn [fst snd]. by rewrite app_nil_r.
  - destruct (supported (path_join root fname)) eqn:Hs; unfold supported in Hs; rewrite Hs.
    + cbn [collect_each].
      destruct (collect_local_file m (path_join root fname) output_dir) as [[p|e] m1];
        cbn [fst snd]; rewrite IH; [by rewrite <-app_assoc|done].
    + apply IH.
Qed.

Lemma collect_each_app (fpaths later : list string) (m : fs) :
  collect_each m (fpaths ++ later) output_dir
  = ((collect_each m fpaths output_dir).1
     ++ (collect_each (collect_each m fpaths output_dir).2 later output_dir).1,
     (collect_each (collect_each m fpaths output_dir).2 later output_dir).2).
Proof.
  revert m. induction fpaths as [|fpath rest IH]; intros m.
  - cbn [app collect_each fst snd]. by destruct (collect_each m later output_dir).
  - cbn [app collect_each fst snd]. rewrite IH. cbn [fst snd].
    by destruct (collect_local_file m fpath output_dir).1.
Qed.

Lemma collect_walk_each (walk : list (string * list string)) (m : fs)
    (collected : list string) :
  collect_walk m collected walk output_dir
  = (collected ++ (collect_each m (candidates walk) output_dir).1,
     (collect_each m (candidates walk) output_dir).2).
Proof.
  revert m collected. induction walk as [|[root files] rest IH]; intros m collected;
    cbn [collect_walk].
  - by rewrite app_nil_r.
  - rewrite collect_files_each, IH. unfold candidates. rewrite fmap_cons.
    cbn [concat fst snd]. rewrite collect_each_app. cbn [fst snd].
    by rewrite <-app_assoc.
Qed.

Lemma collect_each_frame (fpaths : list string) (m : fs) :
  let m' := (collect_each m fpaths output_dir).2 in
  (∀ q, stat m q = Some Dir → stat m' q = Some Dir)
  ∧ (∀ q content, stat m q = Some (File content) →
       (∀ f, f ∈ fpaths → q ≠ dest f ∧ q ≠ dest f ++ [Path_name f]) →
       stat m' q = Some (File content)).
Proof.
  cbn zeta. revert m. induction fpaths as [|fpath rest IH]; intros m; [done|].
  cbn [collect_each snd].
  destruct (collect_local_file_frame m fpath output_dir) as [Hdir Hfile].
  destruct (IH (collect_local_file m fpath output_dir).2) as [IHdir IHfile].
  split.
  - intros q Hq. by apply IHdir, Hdir.
  - intros q content Hq Hfree. apply IHfile.
    + destruct (Hfree fpath) as [? ?]; [by left|]. by apply Hfile.
    + intros f Hf. apply Hfree. by right.
Qed.

Lemma collect_each_new (fpaths : list string) (m : fs) (q : path) :
  stat m q = None →
  stat (collect_each m fpaths output_dir).2 q = None
  ∨ (stat (collect_each m fpaths output_dir).2 q = Some Dir
     ∧ q `prefix_of` parts output_dir)
  ∨ ∃ f, f ∈ fpaths ∧ (q = dest f ∨ q = dest f ++ [Path_name f]).
Proof.
  revert m. induction fpaths as [|fpath rest IH]; intros m Hq; [by left|].
  cbn [collect_each snd].
  destruct (collect_local_file_new m fpath output_dir q Hq) as [Hnone|[[Hdir Hpre]|Hland]].
  - destruct (IH _ Hnone) as [?|[?|(f & Hf & ?)]]; [by left|by right; left|].
    right. right. exists f. split; [by right|done].
  - right. left. split; [|done].
    by apply (proj1 (collect_each_frame rest _)).
  - right. right. exists fpath. split; [by left|done].
Qed.

Lemma collect_each_from (fpaths : list string) (m : fs) :
  length (collect_each m fpaths output_dir).1 ≤ length fpaths
  ∧ ∀ p, p ∈ (collect_each m fpaths output_dir).1 →
      ∃ f, f ∈ fpaths ∧ p = landing f.
Proof.
  revert m. induction fpaths as [|fpath rest IH]; intros m; cbn [collect_each fst].
  - split; [done|]. by intros p ?%elem_of_nil.
  - destruct (IH (collect_local_file m fpath output_dir).2) as [Hlen Hfrom].
    destruct (collect_local_file m fpath output_dir) as [[p0|e] m1] eqn:Hc; cbn [fst snd] in *.
    + split; [simpl; lia|]. intros p [->|Hp]%elem_of_cons.
      * exists fpath. split; [by left|]. by apply collect_local_file_ok_path in Hc.
      * destruct (Hfrom p Hp) as (f & ? & ?). exists f. split; [by right|done].
    + split; [simpl; lia|]. intros p Hp.
      destruct (Hfrom p Hp) as (f & ? & ?). exists f. split; [by right|done].
Qed.

Lemma dest_inj (f g : string) : dest f = dest g → Path_name f = Path_name g.
Proof. unfold dest. intros H. apply app_inv_head in H. congruence. Qed.

Lemma dest_nonempty (f : string) : dest f ≠ [].
Proof. unfold dest. by destruct (parts output_dir). Qed.

Lemma dest_length (f : string) : length (dest f) = S (length (parts output_dir)).
Proof. unfold dest. rewrite length_app. simpl. lia. Qed.

(** When nothing is in the way, every file is collected. *)
Lemma collect_each_clean (fpaths : list string) (m : fs) :
  is_ok (mkdir_parents m [] (parts output_dir)) = true →
  Forall (fun f => supported f = true ∧ exists_ m f = true
                   ∧ (∃ content, stat m (parts f) = Some (File content))
                   ∧ stat m (dest f) ≠ Some Dir) fpaths →
  (∀ f g, f ∈ fpaths → g ∈ fpaths → dest g ≠ parts f) →
  NoDup (Path_name <$> fpaths) →
  (collect_each m fpaths output_dir).1 = landing <$> fpaths
  ∧ Forall (fun f => stat (collect_each m fpaths output_dir).2 (dest f)
                     = stat m (parts f)) fpaths
  ∧ ∀ q n, stat m q = Some n → (∀ f, f ∈ fpaths → q ≠ dest f) →
           stat (collect_each m fpaths output_dir).2 q = Some n.
Proof.
  revert m. induction fpaths as [|fpath rest IH]; intros m Hmk Hall Hland Hnd.
  - split_and!; [done|constructor|done].
  - apply Forall_cons in Hall as [(Hsup & Hex & [content Hsrc] & Hdst) Hrest].
    rewrite fmap_cons in Hnd. apply NoDup_cons in Hnd as [Hfresh Hnd].
    destruct (mkdir_parents m [] (parts output_dir)) as [m1|e] eqn:Hmk1; [clear Hmk|done].
    assert (dest fpath ≠ parts fpath) as Hself by (apply Hland; by left).
    cbn [collect_each].
    rewrite (collect_local_file_success m m1 fpath output_dir content) by done.
    fold (dest fpath). fold (landing fpath). cbn [fst snd].
    set (m2 := <[dest fpath := File content]> m1).
    assert (∀ g, g ∈ rest → dest g ≠ dest fpath) as Hother.
    { intros g Hg E. apply Hfresh. apply dest_inj in E. rewrite <-E.
      by apply list_elem_of_fmap_2. }
    assert (∀ q n, stat m q = Some n → q ≠ dest fpath → stat m2 q = Some n) as Hstep.
    { intros [|c q] n Hq Hne; [done|]. cbn [stat] in *. unfold m2.
      rewrite lookup_insert_ne by done. by eapply mkdir_parents_keeps. }
    assert (∀ g, stat m2 (dest g) = Some Dir → dest g ≠ dest fpath →
                 stat m (dest g) = Some Dir) as Hback.
    { intros g Hg Hne. rewrite stat_nonempty in * by apply dest_nonempty.
      unfold m2 in Hg. rewrite lookup_insert_ne in Hg by done.
      rewrite <-Hg. symmetry. eapply mkdir_parents_beyond; [done|].
      rewrite dest_length. lia. }
    destruct (IH m2) as (Hres & Hfiles & Hframe).
    + rewrite mkdir_parents_again; [done|]. intros k Hk. simpl. unfold m2.
      rewrite lookup_insert_ne.
      * by eapply (mkdir_parents_prefixes _ _ _ [] Hmk1).
      * intros E. apply (f_equal length) in E.
        rewrite dest_length, length_take in E. lia.
    + rewrite Forall_forall in Hrest. apply Forall_forall. intros g Hg.
      destruct (Hrest g Hg) as (Hsup' & Hex' & [content' Hsrc'] & Hdst').
      assert (stat m2 (parts g) = Some (File content')) as Hsrc2.
      { apply Hstep; [done|]. intros E. symmetry in E. revert E. apply Hland; [by right|by left]. }
      split_and!; [done| |by exists content'|].
      * unfold exists_ in *. by rewrite Hsrc2; rewrite Hsrc' in Hex'.
      * intros Hd. apply Hdst'. apply Hback; [done|]. by apply Hother.
    + intros f g Hf Hg. apply Hland; by right.
    + done.
    + split_and!.
      * by rewrite Hres.
      * constructor.
        -- rewrite Hsrc. apply Hframe.
           ++ rewrite stat_nonempty by apply dest_nonempty. unfold m2.
              by rewrite lookup_insert_eq.
           ++ intros g Hg E. by apply (Hother g Hg).
        -- rewrite Forall_forall in Hfiles, Hrest. apply Forall_forall. intros g Hg.
           rewrite (Hfiles g Hg).
           destruct (Hrest g Hg) as (_ & _ & [content' Hsrc'] & _).
           rewrite Hsrc'. apply Hstep; [done|].
           intros E. symmetry in E. revert E. apply Hland; [by right|by left].
      * intros q n Hq Hfree. apply Hframe.
        -- apply Hstep; [done|]. apply Hfree. by left.
        -- intros g Hg. apply Hfree. by right.
Qed.

End Each.

Lemma candidates_supported (walk : list (string * list string)) :
  Forall (fun f => supported f = true) (candidates walk).
Proof.
  unfold candidates. induction walk as [|entry rest IH]; [constructor|].
  rewrite fmap_cons. cbn [concat]. apply Forall_app. split; [|done].
  apply Forall_forall. intros f Hf%list_elem_of_In%filter_In. by destruct Hf.
Qed.

(** X20. [collect_from_directory] fails with NotADirectoryError when the
    source is not a directory, and otherwise never fails.  It then does one
    [collect_local_file] per file of the walk whose extension is supported,
    directory by directory and in sorted order within a directory, each on
    the files as the previous one left them, and returns the paths of those
    that succeeded: a file whose copy fails is skipped, and files with other
    extensions are not touched.  So every directory stays, a regular file
    keeps its content unless it lies where a supported file lands, and
    nothing appears but directories on the way to the output directory and
    entries where a supported file lands; every returned path lies directly
    in the output directory under the name of a supported file, whatever
    directory the file came from.  When
    the output directory can be created, the supported files are regular
    files with distinct names, none of them lies where one lands and no
    directory does, every one of them is collected and its copy has its
    content. *)
Theorem collect_from_directory_flat (m : fs) (walk : list (string * list string))
    (source_dir output_dir : string) :
  let run := collect_from_directory m walk source_dir output_dir in
  let fpaths := candidates walk in
  let dest fpath := parts output_dir ++ [Path_name fpath] in
  let landing fpath := Path_str (Path_join (Path_of output_dir) (Path_name fpath)) in
  (isdir m source_dir = false → run = (Err (NotADirectoryError source_dir), m))
  ∧ (isdir m source_dir = true →
     run = (Ok (collect_each m fpaths output_dir).1, (collect_each m fpaths output_dir).2)
     ∧ (∀ q, stat m q = Some Dir → stat run.2 q = Some Dir)
     ∧ (∀ q content, stat m q = Some (File content) →
          (∀ f, f ∈ fpaths → q ≠ dest f ∧ q ≠ dest f ++ [Path_name f]) →
          stat run.2 q = Some (File content))
     ∧ (∀ q, stat m q = None →
          stat run.2 q = None
          ∨ (stat run.2 q = Some Dir ∧ q `prefix_of` parts output_dir)
          ∨ ∃ f, f ∈ fpaths ∧ (q = dest f ∨ q = dest f ++ [Path_name f]))
     ∧ (∃ collected,
          run.1 = Ok collected
          ∧ length collected ≤ length (concat (walk.*2))
          ∧ ∀ p, p ∈ collected →
              ∃ root files fname,
                (root, files) ∈ walk ∧ fname ∈ files
                ∧ is_audio (path_join root fname) || is_video (path_join root fname) = true
                ∧ p = landing (path_join root fname))
     ∧ (is_ok (mkdir_parents m [] (parts output_dir)) = true →
        Forall (fun f => exists_ m f = true
                         ∧ (∃ content, stat m (parts f) = Some (File content))
                         ∧ stat m (dest f) ≠ Some Dir) fpaths →
        (∀ f g, f ∈ fpaths → g ∈ fpaths → dest g ≠ parts f) →
        NoDup (Path_name <$> fpaths) →
        run.1 = Ok (landing <$> fpaths)
        ∧ Forall (fun f => stat run.2 (dest f) = stat m (parts f)) fpaths)).
Proof.
  cbn zeta. unfold collect_from_directory. split; intros ->; cbn [negb]; [done|].
  rewrite collect_walk_each. cbn [app fst snd].
  split_and!.
  - done.
  - apply collect_each_frame.
  - apply collect_each_frame.
  - apply collect_each_new.
  - destruct (collect_walk_facts output_dir walk m []) as (added & Hrun & Hlen & Hfrom).
    rewrite collect_walk_each in Hrun. cbn [app fst] in Hrun. rewrite Hrun.
    by exists added.
  - intros Hmk Hall Hland Hnd.
    destruct (collect_each_clean output_dir (candidates walk) m) as (Hres & Hfiles & _);
      [done| |done|done|].
    + apply Forall_and. split; [apply candidates_supported|done].
    + by rewrite Hres.
Qed.

Lemma collect_from_directory_flat_witness :
  (collect_from_directory music_fs [("music", ["notes.txt"; "Song.MP3"])] "music" "out").1
  = Ok ["out/Song.MP3"]
  ∧ stat (collect_from_directory music_fs [("music", ["notes.txt"; "Song.MP3"])]
            "music" "out").2 ["out"; "Song.MP3"]
    = Some (File hello).
Proof.
  assert ((collect_from_directory music_fs [("music", ["notes.txt"; "Song.MP3"])]
             "music" "out").1 = Ok ["out/Song.MP3"]
          ∧ Forall (fun f =>
                      stat (collect_from_directory music_fs
                              [("music", ["notes.txt"; "Song.MP3"])] "music" "out").2
                        (parts "out" ++ [Path_name f])
                      = stat music_fs (parts f)) ["music/Song.MP3"]) as [Hres Hfiles].
  { apply (proj2 (proj2 (proj2 (proj2 (proj2 (proj2
             (collect_from_directory_flat music_fs [("music", ["notes.txt"; "Song.MP3"])]
                "music" "out") eq_refl)))))).
    - reflexivity.
    - repeat constructor; [by exists hello | vm_compute; congruence].
    - intros f g Hf Hg.
      apply list_elem_of_singleton in Hf as ->. apply list_elem_of_singleton in Hg as ->.
      vm_compute. congruence.
    - repeat constructor. by intros ?%elem_of_nil. }
  split; [exact Hres|]. exact (Forall_inv Hfiles).
Defined.

End CollectorDirFacts.

(** ** Collecting twice, and batches of missing files *)

Section ComposeFacts.
Import Collector CollectorSpec Processor ProcessorSpec.

(** X21. Collecting the same file into the same directory a second time
    succeeds again with the same path and leaves the file system exactly as
    the first collection left it. *)
Theorem collect_local_file_twice (m : fs) (filepath output_dir : string)
    (content : list Byte.byte) :
  let dest := parts output_dir ++ [Path_name filepath] in
  exists_ m filepath = true →
  stat m (parts filepath) = Some (File content) →
  is_audio filepath || is_video filepath = true →
  is_ok (mkdir_parents m [] (parts output_dir)) = true →
  dest ≠ parts filepath → stat m dest ≠ Some Dir →
  let first := collect_local_file m filepath output_dir in
  is_ok first.1 = true
  ∧ collect_local_file first.2 filepath output_dir = first.
Proof.
  intros dest Hex Hsrc Hsup Hmk Hne Hdst.
  destruct (mkdir_parents m [] (parts output_dir)) as [m1|e] eqn:Hmk1; [clear Hmk|done].
  cbn zeta.
  rewrite (collect_local_file_success m m1 filepath output_dir content) by done.
  fold dest. cbn [fst snd is_ok]. split; [done|].
  assert (parts filepath ≠ []) as Hparts by (intros E; by rewrite E in Hsrc).
  assert (dest ≠ []) as Hdne by (unfold dest; by destruct (parts output_dir)).
  set (m2 := <[dest := File content]> m1).
  assert (stat m2 (parts filepath) = Some (File content)) as Hsrc2.
  { rewrite stat_nonempty in * by done. unfold m2. rewrite lookup_insert_ne by done.
    by eapply mkdir_parents_keeps. }
  assert (stat m2 dest = Some (File content)) as Hdst2.
  { rewrite stat_nonempty by done. unfold m2. by rewrite lookup_insert_eq. }
  rewrite (collect_local_file_success m2 m2 filepath output_dir content).
  - fold dest. unfold m2. by rewrite insert_insert_eq.
  - unfold exists_ in *. by rewrite Hsrc2; rewrite Hsrc in Hex.
  - done.
  - done.
  - apply mkdir_parents_again. intros k Hk. simpl. unfold m2.
    rewrite lookup_insert_ne.
    + by eapply (mkdir_parents_prefixes _ _ _ [] Hmk1).
    + intros E. apply (f_equal length) in E. unfold dest in E.
      rewrite length_app, length_take in E. simpl in E. lia.
  - done.
  - fold dest. by rewrite Hdst2.
Qed.

Lemma collect_local_file_twice_witness :
  collect_local_file (collect_local_file music_fs "music/Song.MP3" "out/collected").2
    "music/Song.MP3" "out/collected"
  = collect_local_file music_fs "music/Song.MP3" "out/collected".
Proof.
  apply (collect_local_file_twice music_fs "music/Song.MP3" "out/collected" hello);
    vm_compute; congruence.
Defined.

Section MissingBatch.
Context {Wave Stamp : Type}.
Variable t : @tools Wave Stamp.
Variables (output_dir model_size : string) (language : option string).

Lemma process_file_missing_unchanged (w : world) (filepath : string) :
  exists_ (files w) filepath = false →
  ∃ e, process_file t w filepath output_dir model_size language = (Err e, w).
Proof.
  intros Hex. unfold process_file, extract_audio_from_video, transcribe_audio.
  rewrite Hex. cbn [negb].
  destruct (is_video filepath); [|destruct (is_audio filepath)].
  - destruct (moviepy t); eauto.
  - destruct (whisper t); eauto.
  - eauto.
Qed.

Lemma batch_loop_all_missing (todo : list string) (w : world) (i total : nat) :
  Forall (fun fp => exists_ (files w) fp = false) todo →
  let run := process_batch_loop t w [] i total todo output_dir model_size language in
  files run.2 = files w ∧ commands run.2 = commands w
  ∧ Forall2 (fun fp item => ∃ error, item = Failed fp error) todo run.1.
Proof.
  revert w i. induction todo as [|fp rest IH]; intros w i Hall; cbn zeta.
  - by split_and!.
  - apply Forall_cons in Hall as [Hfp Hrest].
    rewrite (batch_loop_cons t output_dir model_size language fp rest w i total).
    destruct (process_file_missing_unchanged (print (batch_header i total fp) w) fp Hfp)
      as [e ->].
    cbn [fst snd item_of].
    destruct (IH (print ("  [Error] Failed to process " +:+ fp +:+ ": " +:+ str e)
                    (print (batch_header i total fp) w)) (S i) Hrest)
      as (Hf & Hc & Hitems).
    split_and!; [done..|]. constructor; [by eexists|done].
Qed.

End MissingBatch.

(** X22. A batch of paths none of which exists yields an error record for
    each of them, in order, and neither runs a command nor touches a
    file. *)
Theorem process_batch_all_missing {Wave Stamp : Type} (t : @tools Wave Stamp)
    (w : world) (filepaths : list string) (output_dir model_size : string)
    (language : option string) :
  Forall (fun fp => exists_ (files w) fp = false) filepaths →
  let run := process_batch t w filepaths output_dir model_size language in
  files run.2 = files w ∧ commands run.2 = commands w
  ∧ Forall2 (fun fp item => ∃ error, item = Failed fp error) filepaths run.1.
Proof.
  intros Hall. cbn zeta. unfold process_batch.
  by apply (batch_loop_all_missing t output_dir model_size language filepaths w 1).
Qed.

Lemma process_batch_all_missing_witness :
  commands (process_batch demo_tools demo_world ["clips/none.mp3"; "clips/gone.mp4"]
              "output" "base" None).2 = [].
Proof.
  apply (process_batch_all_missing demo_tools demo_world
           ["clips/none.mp3"; "clips/gone.mp4"] "output" "base" None).
  repeat constructor.
Defined.

End ComposeFacts.
